(** * loopy: the public surface (loopy/__init__.py) and the linearization
      pipeline it re-exports.

    Part I embeds the functions defined in [loopy/__init__.py] itself:
    [set_options], the three [register_*] functions, [set_caching_enabled]
    and the [CacheMode] context manager.

    Part II models the dependency graph builder, the reduction realizer and
    the linearization engine, which [loopy/__init__.py] only imports. *)

From stdpp Require Import base gmap list strings pretty.
From Stdlib Require Import ZArith Lia.

(** ** Python exceptions and results *)

Inductive exception : Type :=
  | TypeError (msg : string)
  | ValueError (msg : string)
  | AttributeError (msg : string)
  | LoopyError (msg : string)
  | OtherError (msg : string).

Inductive result (A : Type) : Type :=
  | Ok (a : A)
  | Raise (e : exception).
Arguments Ok {A} a.
Arguments Raise {A} e.

(** * Part I: loopy/__init__.py *)

Module Loopy.

(** Object identities of the mutable [Options] instances. *)
Definition loc := nat.

(** The attributes of a [LoopKernel] that this file reads and replaces
    through [kernel.copy(...)].  [options] is a reference to a mutable
    [Options] instance; the three callback lists are copied with [[:]]
    before they are changed, so they are carried by value. *)
Record LoopKernel (callback : Type) : Type := mkLoopKernel {
  options : loc;
  preamble_generators : list callback;
  symbol_manglers : list callback;
  function_manglers : list callback
}.
Arguments mkLoopKernel {callback} _ _ _ _.
Arguments options {callback} _.
Arguments preamble_generators {callback} _.
Arguments symbol_manglers {callback} _.
Arguments function_manglers {callback} _.

(** The decorator [iterate_over_kernels_if_given_program] of
    [loopy.program] applies a function to the kernels of a program, or to
    the kernel it is given.  The definitions below are the functions on a
    kernel. *)

(** ** Library registration *)

Section Registration.
Context {callback : Type} `{EqDecision callback}.

(** [loopy.tools.unpickles_equally], and [str] applied to a callback for
    the [%s] of the error messages. *)
Variable unpickles_equally : callback -> bool.
Variable str : callback -> string.

(** The body shared by the three functions:
<<
    for m in manglers:
        if m not in new_manglers:
            if not unpickles_equally(m):
                raise LoopyError(...)
            new_manglers.insert(0, m)
>>
    The second component records the calls made to [unpickles_equally],
    oldest first. *)
Fixpoint register_loop (fmt : string -> string)
    (new_manglers : list callback) (checked : list callback)
    (manglers : list callback) : result (list callback) * list callback :=
  match manglers with
  | [] => (Ok new_manglers, checked)
  | m :: rest =>
      if bool_decide (m ∈ new_manglers)
      then register_loop fmt new_manglers checked rest
      else if unpickles_equally m
           then register_loop fmt (m :: new_manglers) (checked ++ [m]) rest
           else (Raise (LoopyError (fmt (str m))), checked ++ [m])
  end.

Definition pgen_message (s : string) : string :=
  "preamble generator '" +:+ s +:+ "' does not compare equally after being "
    +:+ "upickled and would thus disrupt loopy's caches".

Definition mangler_message (s : string) : string :=
  "mangler '" +:+ s +:+ "' does not compare equally after being upickled "
    +:+ "and would disrupt loopy's caches".

Definition finish (kernel : LoopKernel callback)
    (set : list callback -> LoopKernel callback)
    (r : result (list callback) * list callback)
    : result (LoopKernel callback) * list callback :=
  match r with
  | (Ok l, tr) => (Ok (set l), tr)
  | (Raise e, tr) => (Raise e, tr)
  end.

Definition register_preamble_generators (kernel : LoopKernel callback)
    (pgens : list callback) : result (LoopKernel callback) * list callback :=
  finish kernel
    (fun new_pgens =>
       mkLoopKernel (options kernel) new_pgens
         (symbol_manglers kernel) (function_manglers kernel))
    (register_loop pgen_message (preamble_generators kernel) [] pgens).

Definition register_symbol_manglers (kernel : LoopKernel callback)
    (manglers : list callback) : result (LoopKernel callback) * list callback :=
  finish kernel
    (fun new_manglers =>
       mkLoopKernel (options kernel) (preamble_generators kernel)
         new_manglers (function_manglers kernel))
    (register_loop mangler_message (symbol_manglers kernel) [] manglers).

Definition register_function_manglers (kernel : LoopKernel callback)
    (manglers : list callback) : result (LoopKernel callback) * list callback :=
  finish kernel
    (fun new_manglers =>
       mkLoopKernel (options kernel) (preamble_generators kernel)
         (symbol_manglers kernel) new_manglers)
    (register_loop mangler_message (function_manglers kernel) [] manglers).

(** The callbacks of [manglers] that the loop inserts, in the order in
    which it meets them: those not yet in the list it is building. *)
Fixpoint fresh_callbacks (present : list callback) (manglers : list callback)
    : list callback :=
  match manglers with
  | [] => []
  | m :: rest =>
      if bool_decide (m ∈ present) then fresh_callbacks present rest
      else m :: fresh_callbacks (m :: present) rest
  end.

(** [register] checks what it adds: it raises the [LoopyError] of a
    callback that is new and does not unpickle equally, and otherwise
    returns a kernel whose list [field] holds the callbacks, every new one
    checked, and whose other attributes are those of the argument. *)
Definition validates_at_registration
    (register : LoopKernel callback -> list callback ->
                result (LoopKernel callback) * list callback)
    (field : LoopKernel callback -> list callback)
    (others : LoopKernel callback -> loc * list callback * list callback)
    (fmt : string -> string) : Prop :=
  forall (kernel : LoopKernel callback) (manglers : list callback),
    ((exists m, m ∈ manglers /\ (m ∉ field kernel)
                /\ unpickles_equally m = false) ->
     exists m, fst (register kernel manglers)
               = Raise (LoopyError (fmt (str m)))
               /\ m ∈ manglers /\ (m ∉ field kernel)
               /\ unpickles_equally m = false)
    /\
    ((forall m, m ∈ manglers -> (m ∉ field kernel) ->
                unpickles_equally m = true) ->
     exists kernel', fst (register kernel manglers) = Ok kernel'
       /\ (forall m, m ∈ field kernel' <-> m ∈ manglers \/ m ∈ field kernel)
       /\ others kernel' = others kernel
       /\ (forall m, m ∈ field kernel' -> (m ∉ field kernel) ->
             m ∈ snd (register kernel manglers)
             /\ unpickles_equally m = true)).

(** [register] leaves a kernel that already has the callbacks as it is
    and checks none of them; it checks new callbacks only; what it adds
    goes to the front, the callback registered last first. *)
Definition registers_idempotently
    (register : LoopKernel callback -> list callback ->
                result (LoopKernel callback) * list callback)
    (field : LoopKernel callback -> list callback) : Prop :=
  forall (kernel : LoopKernel callback) (manglers : list callback),
    ((forall m, m ∈ manglers -> m ∈ field kernel) ->
     register kernel manglers = (Ok kernel, []))
    /\ (forall m, m ∈ snd (register kernel manglers) ->
          m ∈ manglers /\ (m ∉ field kernel))
    /\ (forall kernel', fst (register kernel manglers) = Ok kernel' ->
          field kernel'
          = reverse (fresh_callbacks (field kernel) manglers) ++ field kernel
          /\ register kernel' manglers = (Ok kernel', []))
    /\ (forall m, (m ∉ field kernel) -> unpickles_equally m = true ->
          exists kernel', register kernel [m] = (Ok kernel', [m])
                          /\ field kernel' = m :: field kernel).

End Registration.

(** ** set_options *)

Section SetOptions.
Context {callback value : Type}.

(** From [loopy.options], which this file imports inside the function:
    [_apply_legacy_map(Options._legacy_options_map, kwargs)],
    [make_options(arg)] (the attributes of the [Options] instance it
    builds) and the effect of [Options.update] on the attributes of the
    receiver.  The first two may raise. *)
Variable _apply_legacy_map :
  list (string * value) -> result (list (string * value)).
Variable make_options : value -> result (gmap string value).
Variable Options_update :
  gmap string value -> gmap string value -> gmap string value.

(** Truth value of a tuple or of a dict: non-empty. *)
Definition truthy {A : Type} (l : list A) : bool :=
  match l with [] => false | _ :: _ => true end.

(** The loop over [kwargs.items()], on the attributes of [new_opt]:
<<
    for key, val in kwargs.items():
        if not hasattr(new_opt, key):
            raise ValueError("unknown option '%s'" % key)
        setattr(new_opt, key, val)
>>
    It returns the attributes that [new_opt] is left with and the
    exception raised, if any. *)
Fixpoint setattr_loop (new_opt : gmap string value)
    (kwargs : list (string * value)) : gmap string value * option exception :=
  match kwargs with
  | [] => (new_opt, None)
  | (key, val) :: rest =>
      match new_opt !! key with
      | None => (new_opt, Some (ValueError ("unknown option '" +:+ key +:+ "'")))
      | Some _ => setattr_loop (<[key := val]> new_opt) rest
      end
  end.

(** [set_options(kernel, *args, **kwargs)] on a heap [h] of [Options]
    instances.  [kernel.options.copy()] allocates a new instance with the
    same attributes; [kernel.copy(options=new_opt)] is a new kernel value
    that refers to it. *)
Definition set_options (h : gmap loc (gmap string value))
    (kernel : LoopKernel callback)
    (args : list value) (kwargs : list (string * value))
    : gmap loc (gmap string value) * result (LoopKernel callback) :=
  if truthy args && truthy kwargs then
    (h, Raise (TypeError "cannot pass both positional and keyword arguments"))
  else
    let new_opt := fresh (dom h) in
    (* [kernel.options] refers to a live instance *)
    let attrs := default ∅ (h !! options kernel) in
    let h1 := <[new_opt := attrs]> h in
    let copy := mkLoopKernel new_opt (preamble_generators kernel)
                  (symbol_manglers kernel) (function_manglers kernel) in
    if truthy kwargs then
      match _apply_legacy_map kwargs with
      | Raise e => (h1, Raise e)
      | Ok kwargs' =>
          match setattr_loop attrs kwargs' with
          | (attrs', Some e) => (<[new_opt := attrs']> h1, Raise e)
          | (attrs', None) => (<[new_opt := attrs']> h1, Ok copy)
          end
      end
    else
      match args with
      | [arg] =>
          match make_options arg with
          | Raise e => (h1, Raise e)
          | Ok other => (<[new_opt := Options_update attrs other]> h1, Ok copy)
          end
      | _ =>
          (h1, Raise (TypeError
             ("exactly one positional argument is required if "
              +:+ "no keyword args are given")))
      end.

(** [setattr(new_opt, key, val)] for every pair, in order. *)
Definition setattrs (attrs : gmap string value)
    (kwargs : list (string * value)) : gmap string value :=
  foldl (fun m kv => <[kv.1 := kv.2]> m) attrs kwargs.

End SetOptions.

(** ** Cache control *)

Section CacheControl.
Context {flag target : Type}.

(** The module globals that the functions of this file assign to. *)
Record globals : Type := mkGlobals {
  CACHING_ENABLED : flag;
  _DEFAULT_TARGET : option target
}.

Definition set_caching_enabled (new : flag) (g : globals) : globals :=
  mkGlobals new (_DEFAULT_TARGET g).

Definition set_default_target (t : target) (g : globals) : globals :=
  mkGlobals (CACHING_ENABLED g) (Some t).

(** A [CacheMode] instance; [previous_mode] exists between [__enter__]
    and [__exit__] only ([del self.previous_mode]). *)
Record CacheMode : Type := mkCacheMode {
  new_flag : flag;
  previous_mode : option flag
}.

Definition CacheMode_init (new_flag : flag) : CacheMode :=
  mkCacheMode new_flag None.

Definition CacheMode_enter (self : CacheMode) (g : globals)
    : CacheMode * globals :=
  (mkCacheMode (new_flag self) (Some (CACHING_ENABLED g)),
   mkGlobals (new_flag self) (_DEFAULT_TARGET g)).

(** The arguments [exc_type, exc_val, exc_tb] are not used and the method
    returns [None]. *)
Definition CacheMode_exit (self : CacheMode) (g : globals)
    : result (CacheMode * globals) :=
  match previous_mode self with
  | Some previous =>
      Ok (mkCacheMode (new_flag self) None,
          mkGlobals previous (_DEFAULT_TARGET g))
  | None => Raise (AttributeError "previous_mode")
  end.

(** [with CacheMode(new_flag): body].  The body is any computation on the
    globals that returns or raises; [__enter__] returns [None], so the
    body holds no reference to the instance.  [__exit__] runs on both
    ways out and, returning [None], lets an exception of the body
    propagate. *)
Definition with_CacheMode {A : Type} (new_flag : flag)
    (body : globals -> globals * result A) (g : globals)
    : globals * result A :=
  let '(self, g1) := CacheMode_enter (CacheMode_init new_flag) g in
  let '(g2, outcome) := body g1 in
  match CacheMode_exit self g2 with
  | Ok (_, g3) => (g3, outcome)
  | Raise e => (g2, Raise e)
  end.

End CacheControl.

(** ** A [CacheMode] instance used by several [with] statements *)

Section CacheModeInstance.
Context {flag target : Type}.

(** [with cm: body] for an instance [cm] that exists already.  The instance
    is a mutable object that the body can reach, so the body runs on the
    instance and the globals.  An exception of [__exit__] replaces the
    outcome of the body. *)
Definition with_instance {A : Type}
    (body : @CacheMode flag * @globals flag target ->
            (@CacheMode flag * @globals flag target) * result A)
    (st : @CacheMode flag * @globals flag target)
    : (@CacheMode flag * @globals flag target) * result A :=
  let '(st2, outcome) := body (CacheMode_enter (fst st) (snd st)) in
  match CacheMode_exit (fst st2) (snd st2) with
  | Ok st3 => (st3, outcome)
  | Raise e => (st2, Raise e)
  end.

(** A body that does not touch the instance. *)
Definition on_globals {A : Type}
    (body : @globals flag target -> @globals flag target * result A)
    (st : @CacheMode flag * @globals flag target)
    : (@CacheMode flag * @globals flag target) * result A :=
  let '(g, outcome) := body (snd st) in ((fst st, g), outcome).

End CacheModeInstance.

(** ** make_copy_kernel *)

(** [IndexError], raised by [old_dim_tags[i]]. *)
Definition IndexError (msg : string) : exception :=
  OtherError ("IndexError: " +:+ msg).

(** [sep.join(l)]. *)
Fixpoint join (sep : string) (l : list string) : string :=
  match l with
  | [] => ""
  | x :: rest =>
      match rest with
      | [] => x
      | _ :: _ => x +:+ sep +:+ join sep rest
      end
  end.

(** [["i%d" % i for i in range(rank)]] and [["n%d" % i for i in range(rank)]]. *)
Definition indices (rank : nat) : list string :=
  (fun i => "i" +:+ pretty i) <$> seq 0 rank.

Definition shape (rank : nat) : list string :=
  (fun i => "n" +:+ pretty i) <$> seq 0 rank.

Definition commad_indices (rank : nat) : string := join ", " (indices rank).

Definition bounds (rank : nat) : string :=
  join " and "
    (zip_with (fun ind shape_i => "0<=" +:+ ind +:+ "<" +:+ shape_i)
       (indices rank) (shape rank)).

Definition set_str (rank : nat) : string :=
  "{[" +:+ commad_indices rank +:+ "]: " +:+ bounds rank +:+ "}".

(** ["output[%s] = input[%s]" % (commad_indices, commad_indices)]. *)
Definition copy_instruction (rank : nat) : string :=
  "output[" +:+ commad_indices rank +:+ "] = input["
    +:+ commad_indices rank +:+ "]".

(** A layout as the caller gives it: a string, or dim tags already. *)
Inductive layout (dim_tag : Type) : Type :=
  | LayoutString (s : string)
  | LayoutTags (tags : list dim_tag).
Arguments LayoutString {dim_tag} s.
Arguments LayoutTags {dim_tag} tags.

Section MakeCopyKernel.
Context {dim_tag program : Type}.

(** From [loopy.kernel.array]: [parse_array_dim_tags(_, n_axes=None)] and
    [isinstance(_, (SeparateArrayArrayDimTag, VectorArrayDimTag))].  From
    the imports of this file: [make_kernel(set_str, instruction,
    lang_version=MOST_RECENT_LANGUAGE_VERSION)], [tag_array_axes] and
    [tag_inames], the latter on a dict given as its items. *)
Variable parse_array_dim_tags : layout dim_tag -> result (list dim_tag).
Variable is_unrolled : dim_tag -> bool.
Variable make_kernel : string -> string -> result program.
Variable tag_array_axes : program -> string -> list dim_tag -> result program.
Variable tag_inames : program -> list (string * string) -> result program.

(** The dim tags that [old_dim_tags] stands for:
<<
    if old_dim_tags is None:
        old_dim_tags = parse_array_dim_tags(",".join(rank * ["c"]), n_axes=None)
    elif isinstance(old_dim_tags, str):
        old_dim_tags = parse_array_dim_tags(old_dim_tags, n_axes=None)
>> *)
Definition old_tags (rank : nat) (old_dim_tags : option (layout dim_tag))
    : result (list dim_tag) :=
  match old_dim_tags with
  | None => parse_array_dim_tags (LayoutString (join "," (replicate rank "c")))
  | Some (LayoutString s) => parse_array_dim_tags (LayoutString s)
  | Some (LayoutTags tags) => Ok tags
  end.

(** The loop
<<
    for i in range(rank):
        if (isinstance(new_dim_tags[i], unrolled_tags)
                or isinstance(old_dim_tags[i], unrolled_tags)):
            result = tag_inames(result, {indices[i]: "unr"})
>>
    over the values of [i] that are left. *)
Fixpoint unroll_loop (new_dim_tags old_dim_tags : list dim_tag)
    (names : list string) (knl : program) (range : list nat)
    : result program :=
  match range with
  | [] => Ok knl
  | i :: rest =>
      let tag :=
        match names !! i with
        | None => Raise (IndexError "list index out of range")
        | Some name =>
            match tag_inames knl [(name, "unr")] with
            | Raise e => Raise e
            | Ok knl' =>
                unroll_loop new_dim_tags old_dim_tags names knl' rest
            end
        end in
      match new_dim_tags !! i with
      | None => Raise (IndexError "list index out of range")
      | Some n =>
          if is_unrolled n then tag
          else
            match old_dim_tags !! i with
            | None => Raise (IndexError "list index out of range")
            | Some o =>
                if is_unrolled o then tag
                else unroll_loop new_dim_tags old_dim_tags names knl rest
            end
      end
  end.

Definition make_copy_kernel (new_dim_tags : layout dim_tag)
    (old_dim_tags : option (layout dim_tag)) : result program :=
  match parse_array_dim_tags new_dim_tags with
  | Raise e => Raise e
  | Ok new =>
      let rank := length new in
      match old_tags rank old_dim_tags with
      | Raise e => Raise e
      | Ok old =>
          match make_kernel (set_str rank) (copy_instruction rank) with
          | Raise e => Raise e
          | Ok knl0 =>
              match tag_array_axes knl0 "input" old with
              | Raise e => Raise e
              | Ok knl1 =>
                  match tag_array_axes knl1 "output" new with
                  | Raise e => Raise e
                  | Ok knl2 =>
                      unroll_loop new old (indices rank) knl2 (seq 0 rank)
                  end
              end
          end
      end
  end.

(** The axes whose iname the loop tags: those where one of the two layouts
    has an unrolled tag. *)
Definition unrolled_axes (new_dim_tags old_dim_tags : list dim_tag)
    : list nat :=
  filter (fun i =>
            (from_option is_unrolled false (new_dim_tags !! i)
             || from_option is_unrolled false (old_dim_tags !! i)) = true)
    (seq 0 (length new_dim_tags)).

(** [tag_inames] for the inames of a list of axes, one call per axis. *)
Fixpoint tag_axes (knl : program) (axes : list nat) : result program :=
  match axes with
  | [] => Ok knl
  | i :: rest =>
      match tag_inames knl [("i" +:+ pretty i, "unr")] with
      | Raise e => Raise e
      | Ok knl' => tag_axes knl' rest
      end
  end.

End MakeCopyKernel.

(** ** Further properties of the registration functions *)

Section RegistrationProperties.
Context {callback : Type} `{EqDecision callback}.
Variable unpickles_equally : callback -> bool.
Variable str : callback -> string.

(** The list of the kernel that [register] returns has no duplicates when
    the list of the kernel it was given has none. *)
Definition keeps_distinct
    (register : LoopKernel callback -> list callback ->
                result (LoopKernel callback) * list callback)
    (field : LoopKernel callback -> list callback) : Prop :=
  forall kernel manglers kernel',
    NoDup (field kernel) ->
    fst (register kernel manglers) = Ok kernel' ->
    NoDup (field kernel').

(** [register] calls [unpickles_equally] at most once for a callback, and
    what it adds to the list is what it has checked, the last one first. *)
Definition checks_once
    (register : LoopKernel callback -> list callback ->
                result (LoopKernel callback) * list callback)
    (field : LoopKernel callback -> list callback) : Prop :=
  forall kernel manglers,
    NoDup (snd (register kernel manglers))
    /\ (forall kernel', fst (register kernel manglers) = Ok kernel' ->
          field kernel' = reverse (snd (register kernel manglers)) ++ field kernel).

(** Registering [ms1] and then [ms2] is registering [ms1 ++ ms2]. *)
Definition composes_sequentially
    (register : LoopKernel callback -> list callback ->
                result (LoopKernel callback) * list callback) : Prop :=
  forall kernel ms1 ms2,
    match fst (register kernel ms1) with
    | Ok kernel1 =>
        register kernel (ms1 ++ ms2)
        = (fst (register kernel1 ms2),
           snd (register kernel ms1) ++ snd (register kernel1 ms2))
    | Raise e => register kernel (ms1 ++ ms2) = register kernel ms1
    end.

(** [register] raises for the first callback that is new and does not
    unpickle equally, after it has checked the new callbacks before it. *)
Definition raises_at_first_failure
    (register : LoopKernel callback -> list callback ->
                result (LoopKernel callback) * list callback)
    (field : LoopKernel callback -> list callback)
    (fmt : string -> string) : Prop :=
  forall kernel pre m post,
    (forall x, x ∈ pre -> x ∈ field kernel \/ unpickles_equally x = true) ->
    (m ∉ field kernel) ->
    unpickles_equally m = false ->
    register kernel (pre ++ m :: post)
    = (Raise (LoopyError (fmt (str m))),
       fresh_callbacks (field kernel) pre ++ [m]).

End RegistrationProperties.

End Loopy.

(** * Part II: the linearization pipeline

    [loopy/__init__.py] imports [realize_reduction] from [loopy.preprocess]
    and [generate_loop_schedules], [get_one_scheduled_kernel] from
    [loopy.schedule]; the definitions below model them from the design
    document of the pipeline. *)

Module Linearization.

Abbreviation iname := string (only parsing).
Abbreviation insn_id := string (only parsing).
Abbreviation variable := string (only parsing).

(** ** Data model *)

(** Modelled from the spec: the two flavours of hardware-parallel tag of
    section 3, work-group scoped ("local") and grid scoped ("group"). *)
Inductive hw_class : Type := LocalScoped | GroupScoped.

(** Modelled from the spec: the tag of an iname (section 3). *)
Inductive iname_tag : Type :=
  | Sequential
  | Unrolled
  | Vectorized
  | HardwareParallel (c : hw_class)
  | Untagged.

(** Modelled from the spec: the atomicity requirement of an instruction for
    a variable it touches (section 3). *)
Inductive atomicity_kind : Type :=
  | NoAtomicity | OrderedAtomic | AtomicInit | AtomicUpdate.

(** Modelled from the spec: the operator of a reduction (section 3): sum,
    product, min, max or custom.  A custom operator says whether it is
    associative and commutative. *)
Inductive reduction_operator : Type :=
  | Sum | Product | Min | Max
  | Custom (name : string) (associative commutative : bool).

(** Modelled from the spec: expressions, with the reduction of section 3
    ("an operation over an expression indexed by a scoped set of inames,
    combined with an associative operator"), the identity element of an
    operator and the application of an operator to two values, which the
    Reduction Realizer writes. *)
Inductive expr : Type :=
  | Const (z : Z)
  | Var (v : variable)
  | Index (base index : expr)
  | Arith (op : string) (a b : expr)
  | Identity (op : reduction_operator)
  | Combine (op : reduction_operator) (a b : expr)
  | Reduction (op : reduction_operator) (inames : list iname) (body : expr).

(** Modelled from the spec: what an instruction writes: a variable,
    subscripted by inames. *)
Record lvalue : Type := mkLvalue {
  target : variable;
  subscript : list iname
}.

(** Modelled from the spec: the instruction of section 3: identifier,
    within inames, explicit predecessors, priority, atomicity requirements,
    no-sync-with set, and the assignment it performs.  The conflict/groups
    mechanism takes no part in the transitions of section 4.4 and is left
    out. *)
Record instruction : Type := mkInstruction {
  id : insn_id;
  within_inames : list iname;
  depends_on : list insn_id;
  priority : Z;
  atomicity : list (variable * atomicity_kind);
  no_sync_with : list insn_id;
  assignee : lvalue;
  expression : expr
}.

(** Modelled from the spec: the kernel model of section 3: the
    instructions in declaration order and the tags of the inames.  The
    domains are known through the Domain Oracle only. *)
Record kernel : Type := mkKernel {
  instructions : list instruction;
  iname_tags : gmap string iname_tag
}.

(** Modelled from the spec: the scope of a barrier (section 4.4 d). *)
Inductive barrier_scope : Type := LocalBarrier | GlobalBarrier.

(** Modelled from the spec: the schedule item of section 3. *)
Inductive schedule_item : Type :=
  | EnterLoop (x : iname)
  | LeaveLoop (x : iname)
  | RunInstruction (b : insn_id)
  | Barrier (scope : barrier_scope) (kind : string).

(** Modelled from the spec: the failures of section 7 that the pipeline
    below can end in. *)
Inductive failure : Type :=
  | DependencyCycle (offending : list insn_id)
  | ReductionRejected (insn : insn_id) (op : reduction_operator)
  | SearchExhausted
  | InternalInvariantViolation.

(** Modelled from the spec: a result or a failure value (section 7, "all
    of the above surface to the caller as distinct, inspectable failure
    values"). *)
Inductive outcome (A : Type) : Type :=
  | Success (a : A)
  | Failure (f : failure).
Arguments Success {A} a.
Arguments Failure {A} f.

#[global] Instance hw_class_eq_dec : EqDecision hw_class.
Proof. solve_decision. Defined.
#[global] Instance atomicity_kind_eq_dec : EqDecision atomicity_kind.
Proof. solve_decision. Defined.
#[global] Instance barrier_scope_eq_dec : EqDecision barrier_scope.
Proof. solve_decision. Defined.
#[global] Instance schedule_item_eq_dec : EqDecision schedule_item.
Proof. solve_decision. Defined.

(** Membership in a list, as a boolean. *)
Definition inb {A : Type} `{EqDecision A} (x : A) (l : list A) : bool :=
  bool_decide (x ∈ l).

(** Modelled from the spec: the tag of an iname of a kernel; an iname
    without entry is untagged. *)
Definition tag_of (K : kernel) (x : iname) : iname_tag :=
  default Untagged (iname_tags K !! x).

(** Modelled from the spec: a hardware-parallel tag. *)
Definition is_hw_parallel (t : iname_tag) : bool :=
  match t with HardwareParallel _ => true | _ => false end.

(** Modelled from the spec: two tags of the same hardware-parallel class
    (section 4.3, rule 2). *)
Definition same_hw_class (t1 t2 : iname_tag) : bool :=
  match t1, t2 with
  | HardwareParallel c1, HardwareParallel c2 => bool_decide (c1 = c2)
  | _, _ => false
  end.

(** Modelled from the spec: the inames that the instructions of a kernel
    are within. *)
Definition all_inames (K : kernel) : list iname :=
  remove_dups (flat_map within_inames (instructions K)).

(** ** Dependency Graph Builder *)

Section DependencyGraphBuilder.
(** The read and write summaries of an instruction and the answer to
    "order is required" come from an external analysis. *)
Variable reads writes : instruction -> list variable.
Variable order_required : instruction -> instruction -> bool.

(** Modelled from the spec: [a] names [b] explicitly, as a dependency
    (section 4.1). *)
Definition names (a b : instruction) : bool := inb (id b) (depends_on a).

(** Modelled from the spec: condition (ii) of section 4.1, "A writes a
    variable that B reads or writes and the pair is not listed in either
    instruction's no-sync-with set". *)
Definition conflict (a b : instruction) : bool :=
  existsb (fun v => inb v (reads b ++ writes b)) (writes a)
  && negb (inb (id b) (no_sync_with a))
  && negb (inb (id a) (no_sync_with b)).

(** Modelled from the spec: the instruction updates the variable under
    ordered atomicity. *)
Definition updates_ordered_atomic (a : instruction) (v : variable) : bool :=
  inb v (writes a) && inb (v, OrderedAtomic) (atomicity a).

(** Modelled from the spec: condition (iii) of section 4.1, "both update
    the same atomic variable under ordered-atomicity and order is
    required". *)
Definition atomic_order (a b : instruction) : bool :=
  existsb (fun v => updates_ordered_atomic a v && updates_ordered_atomic b v)
    (writes a)
  && order_required a b.

(** Modelled from the spec: the rule "add edge A -> B if (i) A is
    explicitly listed as a dependency of B, or (ii) ..., or (iii) ...". *)
Definition must_precede (a b : instruction) : bool :=
  names b a || conflict a b || atomic_order a b.

(** Modelled from the spec: "every ordered pair (A, B) where A appears
    before B in declaration order or either names the other explicitly". *)
Definition candidate_pairs (insns : list instruction)
    : list (instruction * instruction) :=
  let indexed := zip (seq 0 (length insns)) insns in
  omap (fun '((i, a), (j, b)) =>
          if (i <? j)%nat || names a b || names b a then Some (a, b) else None)
       (list_prod indexed indexed).

(** Modelled from the spec: the derived must-precede edges; several
    candidate edges between the same pair collapse to one. *)
Definition dependency_edges (insns : list instruction)
    : list (insn_id * insn_id) :=
  remove_dups
    (map (fun '(a, b) => (id a, id b))
       (filter (fun '(a, b) => must_precede a b = true) (candidate_pairs insns))).

(** Modelled from the spec: an edge of the graph. *)
Definition has_edge (E : list (insn_id * insn_id)) (a b : insn_id) : bool :=
  inb (a, b) E.

(** Modelled from the spec: the detection of cycles (section 4.1): is
    there a path of one edge or more from [a] to [b] whose intermediate
    instructions are all taken from [mid]? *)
Fixpoint connected (E : list (insn_id * insn_id)) (mid : list insn_id)
    (a b : insn_id) : bool :=
  match mid with
  | [] => has_edge E a b
  | k :: mid' =>
      connected E mid' a b || (connected E mid' a k && connected E mid' k b)
  end.

(** Modelled from the spec: the instructions that lie on a cycle of the
    must-precede edges, the offending instructions of a cycle error. *)
Definition offending_instructions (insns : list instruction)
    : list insn_id :=
  let E := dependency_edges insns in
  let ids := map id insns in
  filter (fun a => connected E ids a a = true) ids.

(** Modelled from the spec: the Dependency Graph Builder, which returns
    the edges of an acyclic graph or fails with a structural error that
    names the offending instructions. *)
Definition build_dependency_graph (K : kernel)
    : outcome (list (insn_id * insn_id)) :=
  match offending_instructions (instructions K) with
  | [] => Success (dependency_edges (instructions K))
  | offending => Failure (DependencyCycle offending)
  end.

End DependencyGraphBuilder.

(** A path of one edge or more in a list of edges. *)
Inductive path (E : list (insn_id * insn_id)) : insn_id -> insn_id -> Prop :=
  | path_edge a b : (a, b) ∈ E -> path E a b
  | path_step a b c : (a, b) ∈ E -> path E b c -> path E a c.

(** A chain [a -> l1 -> ... -> ln -> b] with its intermediate nodes listed. *)
Fixpoint chain (E : list (insn_id * insn_id)) (a : insn_id)
    (l : list insn_id) (b : insn_id) : Prop :=
  match l with
  | [] => (a, b) ∈ E
  | x :: l' => (a, x) ∈ E /\ chain E x l' b
  end.

(** ** Reduction Realizer *)

(** Modelled from the spec: the two realization strategies of section
    4.2. *)
Inductive strategy : Type := SequentialAccumulation | TreeRealization.

(** Modelled from the spec: the state of the Reduction Realizer: a counter
    for new names and the instructions emitted so far, oldest first. *)
Record realizer_state : Type := mkRealizerState {
  counter : nat;
  emitted : list instruction
}.

(** Modelled from the spec: strategy selection of the Reduction Realizer
    (section 4.2): the tree realization as soon as one reduced iname is
    hardware-parallel, the sequential accumulation otherwise. *)
Definition choose_strategy (K : kernel) (reduced : list iname) : strategy :=
  if existsb (fun x => is_hw_parallel (tag_of K x)) reduced
  then TreeRealization else SequentialAccumulation.

(** Modelled from the spec: "reductions whose operator is not
    associative/commutative-safe for the chosen realization are rejected". *)
Definition operator_safe (op : reduction_operator) (s : strategy) : bool :=
  match op, s with
  | Custom _ associative _, SequentialAccumulation => associative
  | Custom _ associative commutative, TreeRealization =>
      associative && commutative
  | _, _ => true
  end.

(** Modelled from the spec: the partial accumulator of a parallel unit
    (section 4.2), [partial[p1]...[pn]]. *)
Definition lane (partial : variable) (parallel : list iname) : expr :=
  foldl (fun e p => Index e (Var p)) (Var partial) parallel.

Section ReductionRealizer.
(** The number of parallel units of a hardware-parallel iname, from the
    Domain Oracle. *)
Variable lanes : iname -> nat.

(** Modelled from the spec: the partial accumulators of all parallel
    units (section 4.2), one expression each. *)
Fixpoint all_lanes (base : expr) (parallel : list iname) : list expr :=
  match parallel with
  | [] => [base]
  | p :: rest =>
      flat_map (fun k => all_lanes (Index base (Const (Z.of_nat k))) rest)
        (seq 0 (lanes p))
  end.

(** Modelled from the spec: the rewriting of the reductions of one
    expression by the Reduction Realizer (section 4.2).  [owner] is the
    instruction the expression belongs to and [within] the inames around
    the expression.  The result is the rewritten expression, the
    instructions it now depends on, and the new state.  An inner
    reduction is rewritten before the one around it. *)
Fixpoint realize_expr (K : kernel) (owner : instruction)
    (within : list iname) (e : expr) (st : realizer_state)
    : outcome (expr * list insn_id * realizer_state) :=
  let both (mk : expr -> expr -> expr) (a b : expr) :=
    match realize_expr K owner within a st with
    | Failure f => Failure f
    | Success (a', da, st1) =>
        match realize_expr K owner within b st1 with
        | Failure f => Failure f
        | Success (b', db, st2) => Success (mk a' b', da ++ db, st2)
        end
    end in
  match e with
  | Const _ | Var _ | Identity _ => Success (e, [], st)
  | Index a i => both Index a i
  | Arith o a b => both (Arith o) a b
  | Combine o a b => both (Combine o) a b
  | Reduction op reduced body =>
      match realize_expr K owner (remove_dups (within ++ reduced)) body st with
      | Failure f => Failure f
      | Success (body', deps, st1) =>
          let s := choose_strategy K reduced in
          if negb (operator_safe op s) then
            Failure (ReductionRejected (id owner) op)
          else
            let n := pretty (counter st1) in
            let acc := "acc_" +:+ id owner +:+ "_" +:+ n in
            let outer := list_difference within reduced in
            let new (name : string) (w : list iname) (d : list insn_id)
                    (lhs : lvalue) (rhs : expr) :=
              mkInstruction (id owner +:+ name +:+ n) w d (priority owner)
                [] [] lhs rhs in
            match s with
            | SequentialAccumulation =>
                let init :=
                  new "_init_" outer [] (mkLvalue acc []) (Identity op) in
                let update :=
                  new "_update_" (remove_dups (outer ++ reduced))
                    (id init :: deps) (mkLvalue acc [])
                    (Combine op (Var acc) body') in
                Success (Var acc, [id update],
                         mkRealizerState (S (counter st1))
                           (emitted st1 ++ [init; update]))
            | TreeRealization =>
                let parallel :=
                  filter (fun x => is_hw_parallel (tag_of K x) = true) reduced in
                let partial := acc +:+ "_partial" in
                let init :=
                  new "_init_" (remove_dups (outer ++ parallel)) []
                    (mkLvalue partial parallel) (Identity op) in
                let update :=
                  new "_update_" (remove_dups (outer ++ reduced))
                    (id init :: deps) (mkLvalue partial parallel)
                    (Combine op (lane partial parallel) body') in
                let combination :=
                  new "_combine_" outer [id update] (mkLvalue acc [])
                    (foldl (Combine op) (Identity op)
                       (all_lanes (Var partial) parallel)) in
                Success (Var acc, [id combination],
                         mkRealizerState (S (counter st1))
                           (emitted st1 ++ [init; update; combination]))
            end
      end
  end.

(** Modelled from the spec: the Reduction Realizer on one instruction:
    the instructions of its reductions are emitted, then the instruction
    itself with the reductions replaced by their accumulators. *)
Definition realize_instruction (K : kernel) (insn : instruction)
    (st : realizer_state) : outcome realizer_state :=
  match realize_expr K insn (within_inames insn) (expression insn) st with
  | Failure f => Failure f
  | Success (e', deps, st') =>
      Success
        (mkRealizerState (counter st')
           (emitted st' ++
            [mkInstruction (id insn) (within_inames insn)
               (depends_on insn ++ deps) (priority insn) (atomicity insn)
               (no_sync_with insn) (assignee insn) e']))
  end.

(** Modelled from the spec: the Reduction Realizer on the instructions of
    a kernel, in declaration order. *)
Fixpoint realize_instructions (K : kernel) (insns : list instruction)
    (st : realizer_state) : outcome realizer_state :=
  match insns with
  | [] => Success st
  | insn :: rest =>
      match realize_instruction K insn st with
      | Failure f => Failure f
      | Success st' => realize_instructions K rest st'
      end
  end.

(** Modelled from the spec: [realize_reduction], the Reduction Realizer
    of section 4.2, which [loopy/__init__.py] imports from
    [loopy.preprocess]. *)
Definition realize_reduction (K : kernel) : outcome kernel :=
  match realize_instructions K (instructions K) (mkRealizerState 0 []) with
  | Failure f => Failure f
  | Success st => Success (mkKernel (emitted st) (iname_tags K))
  end.

End ReductionRealizer.



(** ** Linearization Search Engine *)

(** Modelled from the spec: the state of the Linearization Search Engine
    (section 4.4): the items so far, the scheduled instructions, the stack
    of open inames (innermost first) and the inames closed. *)
Record sched_state : Type := mkState {
  items : list schedule_item;
  scheduled : list insn_id;
  open_inames : list iname;
  closed_inames : list iname
}.

(** Modelled from the spec: initial state, "empty sequence, nothing
    scheduled, no open inames". *)
Definition initial_state : sched_state := mkState [] [] [] [].

(** Modelled from the spec: the predecessors of an instruction in the
    dependency graph. *)
Definition predecessors (G : list (insn_id * insn_id)) (b : insn_id)
    : list insn_id :=
  map fst (filter (fun e => e.2 = b) G).

(** Modelled from the spec: the instructions not scheduled yet. *)
Definition unscheduled (K : kernel) (st : sched_state) : list instruction :=
  filter (fun i => inb (id i) (scheduled st) = false) (instructions K).

(** Modelled from the spec: the instruction requires the iname: it is
    one of its within inames. *)
Definition requires (i : instruction) (x : iname) : bool :=
  inb x (within_inames i).

(** Modelled from the spec: transition (a) of section 4.4, "an unscheduled
    instruction whose full within-inames set is currently open and all its
    dependency predecessors are already scheduled".  The within inames are
    the required loop context of the instruction (section 3): they are
    the open inames, all of them and no other. *)
Definition runnable (G : list (insn_id * insn_id)) (st : sched_state)
    (i : instruction) : bool :=
  negb (inb (id i) (scheduled st))
  && forallb (fun x => inb x (open_inames st)) (within_inames i)
  && forallb (fun x => inb x (within_inames i)) (open_inames st)
  && forallb (fun a => inb a (scheduled st)) (predecessors G (id i)).

(** Modelled from the spec: terminal state, "every instruction scheduled,
    open-iname stack empty". *)
Definition terminal (K : kernel) (st : sched_state) : bool :=
  forallb (fun i => inb (id i) (scheduled st)) (instructions K)
  && bool_decide (open_inames st = []).

Section Engine.
(** The Domain Oracle's parameter-dependency query, [depends_on x y]: the
    domain of [x] is parameterized by [y]. *)
Variable domain_depends_on : iname -> iname -> bool.

(** The external memory-consistency analysis: the barrier that has to be
    inserted before the given item can follow the given sequence. *)
Variable required_barrier :
  list schedule_item -> schedule_item -> option (barrier_scope * string).

(** Modelled from the spec: the Nesting Legality Checker (section 4.3),
    rules 1 and 2: may [x] be entered as a child loop of the open [y]? *)
Definition may_nest_inside (K : kernel) (x y : iname) : bool :=
  negb (domain_depends_on y x)
  && negb (same_hw_class (tag_of K x) (tag_of K y)).

(** Modelled from the spec: transitions (a), (b) and (c) of section 4.4,
    before the barrier rule is taken into account.  (a) runs a runnable
    instruction.  (b) enters a loop that is not open, that an unscheduled
    instruction requires, that may nest inside every open loop, whose
    domain has all the inames it depends on open, and inside which the
    other inames of the instructions that require it may be entered.
    (c) leaves the innermost open loop when no unscheduled instruction
    requires it. *)
Definition admissible (K : kernel) (G : list (insn_id * insn_id))
    (st : sched_state) (it : schedule_item) : bool :=
  match it with
  | RunInstruction b =>
      existsb (fun i => bool_decide (id i = b) && runnable G st i)
        (instructions K)
  | EnterLoop x =>
      negb (inb x (open_inames st))
      && existsb (fun i => requires i x) (unscheduled K st)
      && forallb (fun y => may_nest_inside K x y) (open_inames st)
      && forallb (fun y => implb (domain_depends_on x y)
                             (inb y (open_inames st)))
           (all_inames K)
      && forallb (fun i =>
                    implb (requires i x)
                      (forallb (fun z => inb z (open_inames st)
                                         || bool_decide (z = x)
                                         || may_nest_inside K z x)
                         (within_inames i)))
           (unscheduled K st)
  | LeaveLoop x =>
      match open_inames st with
      | y :: _ =>
          bool_decide (x = y)
          && negb (existsb (fun i => requires i x) (unscheduled K st))
      | [] => false
      end
  | Barrier _ _ => false
  end.

(** Modelled from the spec: the items whose way a barrier can be forced
    into (section 4.4 d): running an instruction and leaving the innermost
    loop. *)
Definition barrier_guarded (K : kernel) (st : sched_state)
    : list schedule_item :=
  map (fun i => RunInstruction (id i)) (instructions K)
  ++ match open_inames st with y :: _ => [LeaveLoop y] | [] => [] end.

(** Modelled from the spec: the transitions of section 4.4 with rule (d):
    a barrier is forced, not chosen. *)
Definition legal (K : kernel) (G : list (insn_id * insn_id))
    (st : sched_state) (it : schedule_item) : bool :=
  match it with
  | Barrier scope kind =>
      existsb (fun it' =>
                 admissible K G st it'
                 && bool_decide
                      (required_barrier (items st) it' = Some (scope, kind)))
        (barrier_guarded K st)
  | EnterLoop _ => admissible K G st it
  | _ =>
      admissible K G st it
      && bool_decide (required_barrier (items st) it = None)
  end.

(** Modelled from the spec: the state after a transition (section 4.4). *)
Definition apply_item (st : sched_state) (it : schedule_item) : sched_state :=
  match it with
  | RunInstruction b =>
      mkState (items st ++ [it]) (b :: scheduled st)
        (open_inames st) (closed_inames st)
  | EnterLoop x =>
      mkState (items st ++ [it]) (scheduled st)
        (x :: open_inames st) (closed_inames st)
  | LeaveLoop x =>
      mkState (items st ++ [it]) (scheduled st)
        (tail (open_inames st)) (x :: closed_inames st)
  | Barrier _ _ =>
      mkState (items st ++ [it]) (scheduled st)
        (open_inames st) (closed_inames st)
  end.

(** Modelled from the spec: the state reached from [st] by a sequence of
    legal transitions. *)
Fixpoint replay (K : kernel) (G : list (insn_id * insn_id))
    (st : sched_state) (its : list schedule_item) : option sched_state :=
  match its with
  | [] => Some st
  | it :: rest =>
      if legal K G st it then replay K G (apply_item st it) rest else None
  end.

(** Modelled from the spec: an accepted schedule, the item sequence of an
    accepting state that the transitions reach from the initial state. *)
Definition accepted (K : kernel) (G : list (insn_id * insn_id))
    (sigma : list schedule_item) : bool :=
  match replay K G initial_state sigma with
  | Some st => terminal K st
  | None => false
  end.

(** Modelled from the spec: "prefer higher declared priority; break
    remaining ties by a stable, deterministic order": insertion into a list
    sorted by decreasing key, before the elements of the same key. *)
Fixpoint insert_by {A : Type} (key : A -> Z) (x : A) (l : list A) : list A :=
  match l with
  | [] => [x]
  | y :: l' =>
      if (key y <=? key x)%Z then x :: l else y :: insert_by key x l'
  end.

(** Modelled from the spec: stable sort, largest key first; elements of
    the same key keep the order of the list. *)
Definition sort_by {A : Type} (key : A -> Z) (l : list A) : list A :=
  foldr (insert_by key) [] l.

(** Modelled from the spec: the number of stalled instructions that
    entering [x] unblocks (section 4.4 b). *)
Definition unblocked (K : kernel) (G : list (insn_id * insn_id))
    (st : sched_state) (x : iname) : Z :=
  Z.of_nat
    (length
       (filter (fun i => (negb (runnable G st i)
                          && runnable G (apply_item st (EnterLoop x)) i) = true)
          (instructions K))).

(** Modelled from the spec: the soft tag priority of section 4.3, rule 3:
    a vectorized iname should be innermost. *)
Definition tag_rank (t : iname_tag) : Z :=
  match t with Vectorized => 0%Z | _ => 1%Z end.

(** Modelled from the spec: the transition candidates of a state "in
    evaluated order": instructions by priority, then declaration order;
    inames by the number of instructions they unblock, then by tag;
    leaving the innermost loop; the forced barriers. *)
Definition candidates (K : kernel) (G : list (insn_id * insn_id))
    (st : sched_state) : list schedule_item :=
  let run :=
    map (fun i => RunInstruction (id i))
      (sort_by priority (instructions K)) in
  let enter :=
    map EnterLoop
      (sort_by (fun x => (2 * unblocked K G st x + tag_rank (tag_of K x))%Z)
         (all_inames K)) in
  let leave :=
    match open_inames st with y :: _ => [LeaveLoop y] | [] => [] end in
  let barriers :=
    omap (fun it => match required_barrier (items st) it with
                    | Some (scope, kind) => Some (Barrier scope kind)
                    | None => None
                    end)
      (barrier_guarded K st) in
  filter (fun it => legal K G st it = true) (run ++ enter ++ leave ++ barriers).

(** Modelled from the spec: the depth-first search over an explicit stack
    of choice points; every state taken from the stack uses up one unit
    of the search-node budget. *)
Fixpoint explore (K : kernel) (G : list (insn_id * insn_id))
    (budget : nat) (stack : list sched_state) : list (list schedule_item) :=
  match budget with
  | O => []
  | S budget' =>
      match stack with
      | [] => []
      | st :: rest =>
          if terminal K st then items st :: explore K G budget' rest
          else explore K G budget'
                 (map (apply_item st) (candidates K G st) ++ rest)
      end
  end.

(** Modelled from the spec: the configuration of section 6.  The recovery
    by iname duplication gives a new revision of the kernel, which is
    scheduled like any kernel; the search below works on the revision it
    is given and does not read [allow_insn_duplication_for_legality]. *)
Record config : Type := mkConfig {
  first_schedule_only : bool;
  max_schedules : nat;
  allow_insn_duplication_for_legality : bool;
  search_node_budget : nat
}.

(** Modelled from the spec: [generate_loop_schedules], the accepting
    states of the search in the order in which it finds them, up to the
    bounds of the configuration. *)
Definition generate_loop_schedules (cfg : config) (K : kernel)
    (G : list (insn_id * insn_id)) : list (list schedule_item) :=
  take (if first_schedule_only cfg then 1 else max_schedules cfg)
    (explore K G (search_node_budget cfg) [initial_state]).

(** Modelled from the spec: [get_one_scheduled_kernel], the first
    accepting state, or a scheduling failure. *)
Definition get_one_scheduled_kernel (cfg : config) (K : kernel)
    (G : list (insn_id * insn_id)) : outcome (list schedule_item) :=
  match generate_loop_schedules cfg K G with
  | sigma :: _ => Success sigma
  | [] => Failure SearchExhausted
  end.

End Engine.

(** ** Reading a schedule *)

(** Modelled from the spec: "the set of currently open loops at any
    position is the stack of unmatched enter-loop items" (section 3): the
    stack after a sequence, innermost first; [None] when a leave-loop item
    does not close the innermost open loop. *)
Fixpoint open_after (stack : list iname) (its : list schedule_item)
    : option (list iname) :=
  match its with
  | [] => Some stack
  | EnterLoop x :: rest => open_after (x :: stack) rest
  | LeaveLoop x :: rest =>
      match stack with
      | y :: stack' =>
          if bool_decide (x = y) then open_after stack' rest else None
      | [] => None
      end
  | _ :: rest => open_after stack rest
  end.

(** Modelled from the spec: the open-iname stack at position [n] of a
    schedule. *)
Definition open_at (sigma : list schedule_item) (n : nat)
    : option (list iname) :=
  open_after [] (take n sigma).

(** Modelled from the spec: enter-loop and leave-loop items are properly
    nested and balanced. *)
Definition balanced (sigma : list schedule_item) : Prop :=
  open_after [] sigma = Some [].

(** ** Schedule Validator *)

Section Validator.
Variable required_barrier :
  list schedule_item -> schedule_item -> option (barrier_scope * string).

(** Modelled from the spec: the Schedule Validator (section 4.5), which
    replays a finished sequence.  [seen] are the items replayed so far and
    [stack] the loops they leave open.  It asserts that a leave-loop item
    closes the innermost open loop and that no loop is left open at the
    end, that the predecessors of a run-instruction item were run before
    it, that no barrier is missing, and that no hardware-parallel iname is
    entered inside another of its class. *)
Fixpoint validate_from (K : kernel) (G : list (insn_id * insn_id))
    (seen : list schedule_item) (stack : list iname)
    (rest : list schedule_item) : bool :=
  match rest with
  | [] => bool_decide (stack = [])
  | it :: rest' =>
      match it with
      | EnterLoop x =>
          forallb (fun y => negb (same_hw_class (tag_of K x) (tag_of K y)))
            stack
          && validate_from K G (seen ++ [it]) (x :: stack) rest'
      | LeaveLoop x =>
          match stack with
          | y :: stack' =>
              bool_decide (x = y)
              && bool_decide (required_barrier seen it = None)
              && validate_from K G (seen ++ [it]) stack' rest'
          | [] => false
          end
      | RunInstruction b =>
          forallb (fun a => inb (RunInstruction a) seen) (predecessors G b)
          && bool_decide (required_barrier seen it = None)
          && validate_from K G (seen ++ [it]) stack rest'
      | Barrier _ _ => validate_from K G (seen ++ [it]) stack rest'
      end
  end.

(** Modelled from the spec: the Schedule Validator on a finished
    sequence. *)
Definition validate (K : kernel) (G : list (insn_id * insn_id))
    (sigma : list schedule_item) : bool :=
  validate_from K G [] [] sigma.

End Validator.

(** ** The pipeline *)

(** Modelled from the spec: the explicit dependencies of a list of
    instructions, as edges; among them those that the Reduction Realizer
    adds. *)
Definition explicit_edges (insns : list instruction)
    : list (insn_id * insn_id) :=
  flat_map (fun b => map (fun a => (a, id b)) (depends_on b)) insns.

Section Pipeline.
Variable reads writes : instruction -> list variable.
Variable order_required : instruction -> instruction -> bool.
Variable lanes : iname -> nat.
Variable domain_depends_on : iname -> iname -> bool.
Variable required_barrier :
  list schedule_item -> schedule_item -> option (barrier_scope * string).

(** Modelled from the spec: the control flow of section 2: Dependency
    Graph Builder, then Reduction Realizer (which adds instructions and
    dependencies), then Linearization Search Engine, then Schedule
    Validator. *)
Definition linearize (cfg : config) (K : kernel)
    : outcome (list (list schedule_item)) :=
  match build_dependency_graph reads writes order_required K with
  | Failure f => Failure f
  | Success G =>
      match realize_reduction lanes K with
      | Failure f => Failure f
      | Success K' =>
          let G' := remove_dups (G ++ explicit_edges (instructions K')) in
          match generate_loop_schedules domain_depends_on required_barrier
                  cfg K' G' with
          | [] => Failure SearchExhausted
          | schedules =>
              if forallb (validate required_barrier K' G') schedules
              then Success schedules
              else Failure InternalInvariantViolation
          end
      end
  end.

End Pipeline.

(** ** Properties of schedules *)

(** Modelled from the spec: a schedule that the engine produces: an
    accepted sequence, in particular one that [generate_loop_schedules]
    yields or that [get_one_scheduled_kernel] returns. *)
Definition engine_schedule (domain_depends_on : iname -> iname -> bool)
    (required_barrier :
       list schedule_item -> schedule_item -> option (barrier_scope * string))
    (K : kernel) (G : list (insn_id * insn_id))
    (sigma : list schedule_item) : Prop :=
  accepted domain_depends_on required_barrier K G sigma = true
  \/ (exists cfg,
        sigma ∈ generate_loop_schedules domain_depends_on required_barrier
                  cfg K G)
  \/ (exists cfg,
        get_one_scheduled_kernel domain_depends_on required_barrier cfg K G
        = Success sigma).

(** A state that legal transitions reach from the initial state. *)
Definition reachable (domain_depends_on : iname -> iname -> bool)
    (required_barrier :
       list schedule_item -> schedule_item -> option (barrier_scope * string))
    (K : kernel) (G : list (insn_id * insn_id)) (st : sched_state) : Prop :=
  replay domain_depends_on required_barrier K G initial_state (items st)
  = Some st.

(** No two entries of a stack carry the same hardware-parallel class. *)
Definition hw_distinct (K : kernel) (s : list iname) : Prop :=
  forall i j x y, i <> j -> s !! i = Some x -> s !! j = Some y ->
    same_hw_class (tag_of K x) (tag_of K y) = false.

(** At every run-instruction item the open inames are exactly the within
    inames of the instruction. *)
Definition stack_is_within (K : kernel) (sigma : list schedule_item) : Prop :=
  forall n b, sigma !! n = Some (RunInstruction b) ->
    exists s insn, open_at sigma n = Some s /\ insn ∈ instructions K
      /\ id insn = b /\ forall x, x ∈ s <-> x ∈ within_inames insn.

(** ** What the Reduction Realizer leaves for a reduction *)


(** The expression reads the variable. *)
Fixpoint reads (v : variable) (e : expr) : bool :=
  match e with
  | Var x => bool_decide (x = v)
  | Const _ | Identity _ => false
  | Index a b | Arith _ a b | Combine _ a b => reads v a || reads v b
  | Reduction _ _ body => reads v body
  end.








End Linearization.

(** * Concrete kernels and calls *)

Module Examples.
Import Loopy Linearization.

(** ** Part I *)

(** Callbacks are numbered; the odd ones do not unpickle equally. *)
Definition unpickles (m : nat) : bool := Nat.even m.

Definition kernel0 : LoopKernel nat := mkLoopKernel 0 [2] [] [4].

Definition attrs0 : gmap string Z :=
  {[ "trace_assignments" := 0%Z; "write_wrapper" := 0%Z ]}.

Definition heap0 : gmap loc (gmap string Z) := {[ 0 := attrs0 ]}.

Definition no_legacy (kwargs : list (string * Z))
    : result (list (string * Z)) := Ok kwargs.

Definition parse_options (arg : Z) : result (gmap string Z) :=
  Ok {[ "write_wrapper" := arg ]}.

Definition update_options (self other : gmap string Z) : gmap string Z :=
  other ∪ self.

(** ** Part II *)

Definition no_accesses (i : instruction) : list string := [].
Definition no_order (a b : instruction) : bool := false.
Definition independent_domains (x y : string) : bool := false.
Definition no_hazard (l : list schedule_item) (it : schedule_item)
    : option (barrier_scope * string) := None.

Definition cfg_all : config := mkConfig false 10 false 100.
Definition cfg_first : config := mkConfig true 1 false 100.

(** [A] runs in the loop [i]; [B] runs in no loop and depends on [A]. *)
Definition insn_A : instruction :=
  mkInstruction "A" ["i"] [] 0 [] [] (mkLvalue "x" ["i"]) (Const 1).
Definition insn_B : instruction :=
  mkInstruction "B" [] ["A"] 0 [] [] (mkLvalue "y" []) (Var "x").
Definition K_ab : kernel := mkKernel [insn_A; insn_B] ∅.
Definition G_ab : list (string * string) := [("A", "B")].
Definition sigma_ab : list schedule_item :=
  [EnterLoop "i"; RunInstruction "A"; LeaveLoop "i"; RunInstruction "B"].

(** One instruction in a group-parallel and a local-parallel loop. *)
Definition insn_S : instruction :=
  mkInstruction "S" ["g"; "l"] [] 0 [] [] (mkLvalue "out" ["g"; "l"]) (Const 0).
Definition K_hw : kernel :=
  mkKernel [insn_S]
    {[ "g" := HardwareParallel GroupScoped;
       "l" := HardwareParallel LocalScoped ]}.
Definition sigma_hw : list schedule_item :=
  [EnterLoop "g"; EnterLoop "l"; RunInstruction "S";
   LeaveLoop "l"; LeaveLoop "g"].

(** One instruction in two local-parallel loops. *)
Definition K_two_local : kernel :=
  mkKernel [insn_S]
    {[ "g" := HardwareParallel LocalScoped;
       "l" := HardwareParallel LocalScoped ]}.

(** Two instructions that name each other, and a third. *)
Definition insn_P : instruction :=
  mkInstruction "P" [] ["Q"] 0 [] [] (mkLvalue "x" []) (Const 1).
Definition insn_Q : instruction :=
  mkInstruction "Q" [] ["P"] 0 [] [] (mkLvalue "y" []) (Const 1).
Definition K_cycle : kernel := mkKernel [insn_P; insn_Q; insn_B] ∅.


(** ** make_copy_kernel *)

(** Dim tags are numbered, the odd ones separate or vector tags; a program
    is the list of what was done to make it. *)
Definition parse_tags (l : layout nat) : result (list nat) :=
  match l with
  | LayoutString s => Ok (replicate (String.length s) 0)
  | LayoutTags tags => Ok tags
  end.
Definition odd_tag (t : nat) : bool := Nat.odd t.
Definition log_make_kernel (domain insn : string) : result (list string) :=
  Ok [domain; insn].
Definition log_tag_array_axes (knl : list string) (name : string)
    (tags : list nat) : result (list string) :=
  Ok (knl ++ [name]).
Definition log_tag_inames (knl : list string) (d : list (string * string))
    : result (list string) :=
  Ok (knl ++ d.*1).

End Examples.

(** * Proofs, Part I *)

Module LoopyProofs.
Import Loopy Examples.

(** ** Library registration *)

Section RegistrationFacts.
Context {callback : Type} `{EqDecision callback}.
Variable unpickles_equally : callback -> bool.
Variable str : callback -> string.

Lemma elem_of_fresh_callbacks (manglers present : list callback) (m : callback) :
  m ∈ fresh_callbacks present manglers <-> m ∈ manglers /\ (m ∉ present).
Proof.
  revert present. induction manglers as [|a rest IH]; intros present; simpl.
  - rewrite elem_of_nil. tauto.
  - case_bool_decide as Ha.
    + rewrite IH, elem_of_cons. split; [tauto|].
      intros [[->|Hm] Hnew]; [done|tauto].
    + rewrite !elem_of_cons, IH, not_elem_of_cons.
      destruct (decide (m = a)) as [->|Hne]; tauto.
Qed.

Lemma fresh_callbacks_present (present manglers : list callback) :
  (forall m, m ∈ manglers -> m ∈ present) ->
  fresh_callbacks present manglers = [].
Proof.
  intros Hall.
  destruct (fresh_callbacks present manglers) as [|a l] eqn:E; [done|].
  assert (a ∈ fresh_callbacks present manglers) as Ha by (rewrite E; left).
  apply elem_of_fresh_callbacks in Ha as [Hin Hnew].
  destruct Hnew. by apply Hall.
Qed.

(** The loop inserts every callback it has to when all of them pass the
    check. *)
Lemma register_loop_ok fmt (manglers present checked : list callback) :
  Forall (fun m => unpickles_equally m = true)
    (fresh_callbacks present manglers) ->
  register_loop unpickles_equally str fmt present checked manglers
  = (Ok (reverse (fresh_callbacks present manglers) ++ present),
     checked ++ fresh_callbacks present manglers).
Proof.
  revert present checked.
  induction manglers as [|a rest IH]; intros present checked HF; simpl in *.
  - by rewrite app_nil_r.
  - case_bool_decide as Ha.
    + by apply IH.
    + apply Forall_cons in HF as [Hok HF]. rewrite Hok.
      rewrite IH by done. rewrite reverse_cons. by rewrite <- !app_assoc.
Qed.

(** The loop stops at the first callback that it has to insert and that
    fails the check. *)
Lemma register_loop_raise fmt (manglers present checked : list callback) :
  ~ Forall (fun m => unpickles_equally m = true)
      (fresh_callbacks present manglers) ->
  exists pre m post,
    fresh_callbacks present manglers = pre ++ m :: post
    /\ Forall (fun m => unpickles_equally m = true) pre
    /\ unpickles_equally m = false
    /\ register_loop unpickles_equally str fmt present checked manglers
       = (Raise (LoopyError (fmt (str m))), checked ++ pre ++ [m]).
Proof.
  revert present checked.
  induction manglers as [|a rest IH]; intros present checked HF; simpl in *.
  - destruct HF. constructor.
  - case_bool_decide as Ha.
    + by apply IH.
    + destruct (unpickles_equally a) eqn:Hok.
      * destruct (IH (a :: present) (checked ++ [a]))
          as (pre & m & post & E & Hp & Hm & R).
        { intros HF'. apply HF. by constructor. }
        exists (a :: pre), m, post. rewrite E. split; [done|].
        split; [by constructor|]. split; [done|].
        rewrite R. by rewrite <- !app_assoc.
      * exists [], a, (fresh_callbacks (a :: present) rest).
        repeat split; try done.
Qed.

Lemma finish_register fmt (field_k : list callback)
    (set : list callback -> LoopKernel callback) kernel manglers :
  let r := finish kernel set
             (register_loop unpickles_equally str fmt field_k [] manglers) in
  let F := fresh_callbacks field_k manglers in
  (Forall (fun m => unpickles_equally m = true) F ->
     r = (Ok (set (reverse F ++ field_k)), F))
  /\ (~ Forall (fun m => unpickles_equally m = true) F ->
      exists pre m post, F = pre ++ m :: post
        /\ Forall (fun m => unpickles_equally m = true) pre
        /\ unpickles_equally m = false
        /\ r = (Raise (LoopyError (fmt (str m))), pre ++ [m])).
Proof.
  simpl. split.
  - intros HF. by rewrite register_loop_ok.
  - intros HF.
    destruct (register_loop_raise fmt manglers field_k [] HF)
      as (pre & m & post & E & Hp & Hm & R).
    exists pre, m, post. rewrite R. done.
Qed.

Lemma Forall_fresh_dec (present manglers : list callback) :
  Forall (fun m => unpickles_equally m = true) (fresh_callbacks present manglers)
  \/ ~ Forall (fun m => unpickles_equally m = true)
         (fresh_callbacks present manglers).
Proof.
  destruct (decide (Forall (fun m => unpickles_equally m = true)
                      (fresh_callbacks present manglers))); auto.
Qed.

Lemma validates_generic register field others fmt
    (set : LoopKernel callback -> list callback -> LoopKernel callback) :
  (forall kernel manglers,
      register kernel manglers
      = finish kernel (set kernel)
          (register_loop unpickles_equally str fmt (field kernel) [] manglers)) ->
  (forall kernel l, field (set kernel l) = l) ->
  (forall kernel l, others (set kernel l) = others kernel) ->
  validates_at_registration unpickles_equally str register field others fmt.
Proof.
  intros Hreg Hfield Hothers kernel manglers.
  destruct (finish_register fmt (field kernel) (set kernel) kernel manglers)
    as [Hok Hraise].
  rewrite <- Hreg in Hok, Hraise. split.
  - intros (m & Hin & Hnew & Hbad).
    destruct Hraise as (pre & m' & post & E & Hp & Hm & R).
    { intros HF. rewrite Forall_forall in HF.
      specialize (HF m). rewrite elem_of_fresh_callbacks in HF.
      rewrite HF in Hbad by done. done. }
    exists m'. rewrite R. simpl.
    assert (m' ∈ fresh_callbacks (field kernel) manglers) as Hm'.
    { rewrite E, elem_of_app, elem_of_cons. tauto. }
    apply elem_of_fresh_callbacks in Hm' as [? ?]. done.
  - intros Hall.
    assert (Forall (fun m => unpickles_equally m = true)
              (fresh_callbacks (field kernel) manglers)) as HF.
    { apply Forall_forall. intros m Hm.
      apply elem_of_fresh_callbacks in Hm as [? ?]. by apply Hall. }
    specialize (Hok HF). eexists. rewrite Hok. simpl.
    split; [done|]. rewrite Hfield, Hothers.
    split; [|split; [done|]].
    + intros m. rewrite elem_of_app, elem_of_reverse, elem_of_fresh_callbacks.
      destruct (decide (m ∈ field kernel)); tauto.
    + intros m. rewrite elem_of_app, elem_of_reverse.
      intros [Hm|Hm] Hnew; [|done].
      split; [done|]. rewrite Forall_forall in HF. by apply HF.
Qed.

Lemma idempotent_generic register field fmt
    (set : LoopKernel callback -> list callback -> LoopKernel callback) :
  (forall kernel manglers,
      register kernel manglers
      = finish kernel (set kernel)
          (register_loop unpickles_equally str fmt (field kernel) [] manglers)) ->
  (forall kernel l, field (set kernel l) = l) ->
  (forall kernel, set kernel (field kernel) = kernel) ->
  registers_idempotently unpickles_equally register field.
Proof.
  intros Hreg Hfield Hid kernel manglers.
  assert (forall k ms, (forall m, m ∈ ms -> m ∈ field k) ->
            register k ms = (Ok k, [])) as Hpresent.
  { intros k ms Hall.
    destruct (finish_register fmt (field k) (set k) k ms) as [Hok _].
    rewrite <- Hreg in Hok. rewrite fresh_callbacks_present in Hok by done.
    rewrite Hok by constructor. simpl. by rewrite Hid. }
  destruct (finish_register fmt (field kernel) (set kernel) kernel manglers)
    as [Hok Hraise].
  rewrite <- Hreg in Hok, Hraise.
  split; [by apply Hpresent|]. split; [|split].
  - intros m.
    destruct (Forall_fresh_dec (field kernel) manglers) as [HF|HF].
    + rewrite (Hok HF). simpl. apply elem_of_fresh_callbacks.
    + destruct (Hraise HF) as (pre & m' & post & E & _ & _ & R).
      rewrite R. simpl. intros Hm.
      apply elem_of_fresh_callbacks. rewrite E.
      rewrite elem_of_app, list_elem_of_singleton in Hm.
      rewrite elem_of_app, elem_of_cons. tauto.
  - intros kernel' Hk'.
    destruct (Forall_fresh_dec (field kernel) manglers) as [HF|HF].
    + rewrite (Hok HF) in Hk'. simpl in Hk'. injection Hk' as <-.
      rewrite Hfield. split; [done|].
      apply Hpresent. intros m Hm. rewrite Hfield.
      rewrite elem_of_app, elem_of_reverse, elem_of_fresh_callbacks.
      destruct (decide (m ∈ field kernel)); tauto.
    + destruct (Hraise HF) as (pre & m' & post & E & _ & _ & R).
      rewrite R in Hk'. done.
  - intros m Hnew Hgood. eexists.
    rewrite Hreg. simpl. rewrite bool_decide_eq_false_2 by done.
    rewrite Hgood. simpl. split; [done|]. by rewrite Hfield.
Qed.

(** C7: each of [register_function_manglers], [register_symbol_manglers]
    and [register_preamble_generators] checks, when it registers, that
    every callback it adds unpickles equally: it raises the [LoopyError] of
    a new callback that fails the check, and otherwise returns a kernel with
    the callbacks registered, every new one checked, the other attributes
    unchanged. *)
Theorem registration_validates_callbacks :
  validates_at_registration unpickles_equally str
    (register_function_manglers unpickles_equally str) function_manglers
    (fun k => (options k, preamble_generators k, symbol_manglers k))
    mangler_message
  /\ validates_at_registration unpickles_equally str
    (register_symbol_manglers unpickles_equally str) symbol_manglers
    (fun k => (options k, preamble_generators k, function_manglers k))
    mangler_message
  /\ validates_at_registration unpickles_equally str
    (register_preamble_generators unpickles_equally str) preamble_generators
    (fun k => (options k, symbol_manglers k, function_manglers k))
    pgen_message.
Proof.
  split; [|split].
  - by apply (validates_generic _ _ _ _
      (fun k l => mkLoopKernel (options k) (preamble_generators k)
                    (symbol_manglers k) l)).
  - by apply (validates_generic _ _ _ _
      (fun k l => mkLoopKernel (options k) (preamble_generators k)
                    l (function_manglers k))).
  - by apply (validates_generic _ _ _ _
      (fun k l => mkLoopKernel (options k) l
                    (symbol_manglers k) (function_manglers k))).
Qed.

(** C9: registering callbacks that the kernel already has returns the
    kernel as it is and checks nothing; no callback already present is
    ever checked; the new callbacks go to the front of the list, the one
    registered last first; registering the same list again changes
    nothing. *)
Theorem registration_is_idempotent :
  registers_idempotently unpickles_equally
    (register_function_manglers unpickles_equally str) function_manglers
  /\ registers_idempotently unpickles_equally
    (register_symbol_manglers unpickles_equally str) symbol_manglers
  /\ registers_idempotently unpickles_equally
    (register_preamble_generators unpickles_equally str) preamble_generators.
Proof.
  split; [|split].
  - apply (idempotent_generic _ _ mangler_message
      (fun k l => mkLoopKernel (options k) (preamble_generators k)
                    (symbol_manglers k) l)); try done.
    by intros [].
  - apply (idempotent_generic _ _ mangler_message
      (fun k l => mkLoopKernel (options k) (preamble_generators k)
                    l (function_manglers k))); try done.
    by intros [].
  - apply (idempotent_generic _ _ pgen_message
      (fun k l => mkLoopKernel (options k) l
                    (symbol_manglers k) (function_manglers k))); try done.
    by intros [].
Qed.

End RegistrationFacts.

(** ** set_options *)

Section SetOptionsFacts.
Context {callback value : Type}.
Variable _apply_legacy_map :
  list (string * value) -> result (list (string * value)).
Variable make_options : value -> result (gmap string value).
Variable Options_update :
  gmap string value -> gmap string value -> gmap string value.

Lemma setattr_loop_ok (kwargs : list (string * value))
    (attrs : gmap string value) :
  Forall (fun kv => is_Some (attrs !! kv.1)) kwargs ->
  setattr_loop attrs kwargs = (setattrs attrs kwargs, None).
Proof.
  revert attrs. induction kwargs as [|[key val] rest IH]; intros attrs HF; simpl.
  - done.
  - apply Forall_cons in HF as [[old Hold] HF]. simpl in Hold. rewrite Hold.
    apply IH. eapply Forall_impl; [exact HF|].
    intros [k v] [x Hx]. simpl in *.
    destruct (decide (key = k)) as [->|Hne].
    + rewrite lookup_insert_eq. eauto.
    + rewrite lookup_insert_ne by done. eauto.
Qed.

Lemma setattr_loop_unknown (kwargs : list (string * value))
    (attrs : gmap string value) :
  ~ Forall (fun kv => is_Some (attrs !! kv.1)) kwargs ->
  exists attrs' key,
    setattr_loop attrs kwargs
    = (attrs', Some (ValueError ("unknown option '" +:+ key +:+ "'")))
    /\ key ∈ kwargs.*1 /\ attrs !! key = None.
Proof.
  revert attrs. induction kwargs as [|[key val] rest IH]; intros attrs HF; simpl.
  - destruct HF. constructor.
  - destruct (attrs !! key) as [old|] eqn:E.
    + destruct (IH (<[key := val]> attrs)) as (attrs' & key' & R & Hin & Hnone).
      { intros HF'. apply HF. constructor; [simpl; eauto|].
        eapply Forall_impl; [exact HF'|].
        intros [k v] [x Hx]. simpl in *.
        destruct (decide (key = k)) as [->|Hne]; [eauto|].
        rewrite lookup_insert_ne in Hx by done. eauto. }
      exists attrs', key'. split; [done|]. split; [by right|].
      destruct (decide (key = key')) as [->|Hne].
      * by rewrite lookup_insert_eq in Hnone.
      * by rewrite lookup_insert_ne in Hnone.
    + exists attrs, key. split; [done|]. split; [by left|done].
Qed.

Lemma setattrs_lookup_other (kwargs : list (string * value))
    (attrs : gmap string value) (key : string) :
  (key ∉ kwargs.*1) -> setattrs attrs kwargs !! key = attrs !! key.
Proof.
  revert attrs. induction kwargs as [|[k v] rest IH]; intros attrs Hnot.
  - done.
  - simpl in Hnot. apply not_elem_of_cons in Hnot as [Hne Hnot].
    change (setattrs attrs ((k, v) :: rest))
      with (setattrs (<[k := v]> attrs) rest).
    rewrite IH by done. by apply lookup_insert_ne.
Qed.

Lemma setattrs_lookup (kwargs : list (string * value))
    (attrs : gmap string value) (key : string) (val : value) :
  NoDup kwargs.*1 -> (key, val) ∈ kwargs ->
  setattrs attrs kwargs !! key = Some val.
Proof.
  revert attrs. induction kwargs as [|[k v] rest IH]; intros attrs Hnd Hin.
  - by apply elem_of_nil in Hin.
  - simpl in Hnd. apply NoDup_cons in Hnd as [Hk Hnd].
    change (setattrs attrs ((k, v) :: rest))
      with (setattrs (<[k := v]> attrs) rest).
    apply elem_of_cons in Hin as [Heq|Hin].
    + injection Heq as -> ->.
      rewrite setattrs_lookup_other by done. apply lookup_insert_eq.
    + by apply IH.
Qed.

(** The ways in which [set_options] raises, and what it has done when it
    returns. *)
Lemma set_options_cases
    (h : gmap loc (gmap string value)) (kernel : LoopKernel callback)
    (attrs : gmap string value)
    (args : list value) (kwargs : list (string * value)) :
  h !! options kernel = Some attrs ->
  let r := set_options _apply_legacy_map make_options Options_update
             h kernel args kwargs in
  (forall l, is_Some (h !! l) -> fst r !! l = h !! l)
  /\ (args <> [] -> kwargs <> [] ->
      r = (h, Raise (TypeError
              "cannot pass both positional and keyword arguments")))
  /\ (args = [] -> kwargs <> [] ->
      forall kwargs' key,
        _apply_legacy_map kwargs = Ok kwargs' ->
        key ∈ kwargs'.*1 -> attrs !! key = None ->
        exists key', key' ∈ kwargs'.*1 /\ attrs !! key' = None
          /\ snd r = Raise (ValueError ("unknown option '" +:+ key' +:+ "'")))
  /\ (kwargs = [] -> length args <> 1 ->
      snd r = Raise (TypeError
                "exactly one positional argument is required if no keyword args are given"))
  /\ (forall kernel', snd r = Ok kernel' ->
      h !! options kernel' = None
      /\ preamble_generators kernel' = preamble_generators kernel
      /\ symbol_manglers kernel' = symbol_manglers kernel
      /\ function_manglers kernel' = function_manglers kernel
      /\ ((exists kwargs', kwargs <> [] /\ args = []
             /\ _apply_legacy_map kwargs = Ok kwargs'
             /\ Forall (fun kv => is_Some (attrs !! kv.1)) kwargs'
             /\ fst r !! options kernel' = Some (setattrs attrs kwargs')
             /\ (forall key, (key ∉ kwargs'.*1) ->
                   setattrs attrs kwargs' !! key = attrs !! key)
             /\ (NoDup kwargs'.*1 -> forall key val, (key, val) ∈ kwargs' ->
                   setattrs attrs kwargs' !! key = Some val))
          \/ (exists arg other, kwargs = [] /\ args = [arg]
             /\ make_options arg = Ok other
             /\ fst r !! options kernel' = Some (Options_update attrs other)))).
Proof.
  intros Hattrs r.
  assert (h !! fresh (dom h) = None) as Hfresh.
  { apply not_elem_of_dom. apply is_fresh. }
  assert (forall l x, is_Some (h !! l) ->
            <[fresh (dom h) := x]> h !! l = h !! l) as Hkeep.
  { intros l x [y Hy]. apply lookup_insert_ne. intros <-. congruence. }
  assert (forall l x y, is_Some (h !! l) ->
            <[fresh (dom h) := x]> (<[fresh (dom h) := y]> h) !! l = h !! l)
    as Hkeep2.
  { intros l x y Hl. rewrite insert_insert_eq. by apply Hkeep. }
  subst r. unfold set_options. rewrite Hattrs. simpl.
  destruct args as [|arg args]; destruct kwargs as [|kv kwargs]; simpl.
  - (* no argument at all *)
    split; [by intros; apply Hkeep|]. split; [done|]. split; [done|].
    split; [done|]. intros kernel' Hk. done.
  - (* keyword arguments only *)
    destruct (_apply_legacy_map (kv :: kwargs)) as [kwargs'|e] eqn:Hmap; simpl.
    + destruct (decide (Forall (fun kv => is_Some (attrs !! kv.1)) kwargs'))
        as [HF|HF].
      * rewrite (setattr_loop_ok _ _ HF). simpl.
        split; [by intros; apply Hkeep2|]. split; [done|]. split.
        { intros _ _ kwargs'' key [= <-] Hkey Hnone.
          rewrite Forall_forall in HF.
          apply list_elem_of_fmap in Hkey as ([k v] & -> & Hin).
          destruct (HF _ Hin) as [x Hx]. simpl in *. congruence. }
        split; [done|]. intros kernel' [= <-]. simpl.
        repeat (split; [done|]). left. exists kwargs'.
        repeat (split; [done|]).
        split; [rewrite insert_insert_eq; apply lookup_insert_eq|].
        split; [apply setattrs_lookup_other|].
        intros Hnd key val Hin. by apply setattrs_lookup.
      * destruct (setattr_loop_unknown _ _ HF) as (attrs' & key' & R & Hin & Hnone).
        rewrite R. simpl.
        split; [by intros; apply Hkeep2|]. split; [done|]. split.
        { intros _ _ kwargs'' key [= <-] Hkey Hnone'. exists key'. done. }
        split; [done|]. intros kernel' Hk. done.
    + split; [by intros; apply Hkeep|]. split; [done|]. split; [done|].
      split; [done|]. intros kernel' Hk. done.
  - (* positional arguments only *)
    destruct args as [|arg' args]; simpl.
    + destruct (make_options arg) as [other|e] eqn:Hmk; simpl.
      * split; [by intros; apply Hkeep2|]. split; [done|]. split; [done|].
        split; [done|]. intros kernel' [= <-]. simpl.
        repeat (split; [done|]). right. exists arg, other.
        repeat (split; [done|]). rewrite insert_insert_eq. apply lookup_insert_eq.
      * split; [by intros; apply Hkeep|]. split; [done|]. split; [done|].
        split; [done|]. intros kernel' Hk. done.
    + split; [by intros; apply Hkeep|]. split; [done|]. split; [done|].
      split; [done|]. intros kernel' Hk. done.
  - (* both *)
    split; [done|]. split; [done|]. split; [done|]. split; [done|].
    intros kernel' Hk. done.
Qed.

(** C10: [set_options] leaves every [Options] instance of the heap as it
    was.  It raises [TypeError] when positional and keyword arguments are
    both given; [ValueError] naming an option when a keyword, after the
    legacy mapping, is no attribute of the kernel's options; [TypeError]
    when there is no keyword argument and not exactly one positional
    argument.  When it returns, the kernel returned refers to a new
    [Options] instance: a copy of the kernel's options with the requested
    values set.  It does return when the keywords, after the legacy
    mapping, are all attributes of the options, and when the one
    positional argument is accepted by [make_options]; an exception of
    [_apply_legacy_map] or of [make_options] is the exception of the
    call. *)
Theorem set_options_rejects_malformed_calls
    (h : gmap loc (gmap string value)) (kernel : LoopKernel callback)
    (attrs : gmap string value)
    (args : list value) (kwargs : list (string * value)) :
  h !! options kernel = Some attrs ->
  let r := set_options _apply_legacy_map make_options Options_update
             h kernel args kwargs in
  (forall l, is_Some (h !! l) -> fst r !! l = h !! l)
  /\ (args <> [] -> kwargs <> [] ->
      r = (h, Raise (TypeError
              "cannot pass both positional and keyword arguments")))
  /\ (args = [] -> kwargs <> [] ->
      forall kwargs' key,
        _apply_legacy_map kwargs = Ok kwargs' ->
        key ∈ kwargs'.*1 -> attrs !! key = None ->
        exists key', key' ∈ kwargs'.*1 /\ attrs !! key' = None
          /\ snd r = Raise (ValueError ("unknown option '" +:+ key' +:+ "'")))
  /\ (kwargs = [] -> length args <> 1 ->
      snd r = Raise (TypeError
                "exactly one positional argument is required if no keyword args are given"))
  /\ (forall kernel', snd r = Ok kernel' ->
      h !! options kernel' = None
      /\ preamble_generators kernel' = preamble_generators kernel
      /\ symbol_manglers kernel' = symbol_manglers kernel
      /\ function_manglers kernel' = function_manglers kernel
      /\ ((exists kwargs', kwargs <> [] /\ args = []
             /\ _apply_legacy_map kwargs = Ok kwargs'
             /\ Forall (fun kv => is_Some (attrs !! kv.1)) kwargs'
             /\ fst r !! options kernel' = Some (setattrs attrs kwargs')
             /\ (forall key, (key ∉ kwargs'.*1) ->
                   setattrs attrs kwargs' !! key = attrs !! key)
             /\ (NoDup kwargs'.*1 -> forall key val, (key, val) ∈ kwargs' ->
                   setattrs attrs kwargs' !! key = Some val))
          \/ (exists arg other, kwargs = [] /\ args = [arg]
             /\ make_options arg = Ok other
             /\ fst r !! options kernel' = Some (Options_update attrs other))))
  /\ (args = [] -> kwargs <> [] ->
      forall kwargs',
        _apply_legacy_map kwargs = Ok kwargs' ->
        Forall (fun kv => is_Some (attrs !! kv.1)) kwargs' ->
        exists kernel',
          snd r = Ok kernel'
          /\ h !! options kernel' = None
          /\ fst r !! options kernel' = Some (setattrs attrs kwargs'))
  /\ (kwargs = [] ->
      forall arg other,
        args = [arg] -> make_options arg = Ok other ->
        exists kernel',
          snd r = Ok kernel'
          /\ h !! options kernel' = None
          /\ fst r !! options kernel' = Some (Options_update attrs other))
  /\ (args = [] -> kwargs <> [] ->
      forall e, _apply_legacy_map kwargs = Raise e -> snd r = Raise e)
  /\ (kwargs = [] ->
      forall arg e,
        args = [arg] -> make_options arg = Raise e -> snd r = Raise e).
Proof.
  intros Hattrs r.
  destruct (set_options_cases h kernel attrs args kwargs Hattrs)
    as (Hheap & Hboth & Hunknown & Hcount & Hok).
  fold r in Hheap, Hboth, Hunknown, Hcount, Hok.
  split; [exact Hheap|]. split; [exact Hboth|]. split; [exact Hunknown|].
  split; [exact Hcount|]. split; [exact Hok|].
  assert (h !! fresh (dom h) = None) as Hfresh.
  { apply not_elem_of_dom. apply is_fresh. }
  subst r. unfold set_options. rewrite Hattrs. split; [|split; [|split]].
  - intros -> Hne kwargs' Hmap HF.
    destruct kwargs as [|kv kwargs]; [done|]. simpl. rewrite Hmap.
    rewrite (setattr_loop_ok _ _ HF). simpl. eexists. split; [reflexivity|].
    simpl. split; [exact Hfresh|].
    rewrite insert_insert_eq. apply lookup_insert_eq.
  - intros -> arg other -> Hmk. simpl. rewrite Hmk. simpl.
    eexists. split; [reflexivity|]. simpl. split; [exact Hfresh|].
    rewrite insert_insert_eq. apply lookup_insert_eq.
  - intros -> Hne e Hmap.
    destruct kwargs as [|kv kwargs]; [done|]. simpl. by rewrite Hmap.
  - intros -> arg e -> Hmk. simpl. by rewrite Hmk.
Qed.

End SetOptionsFacts.

(** ** Cache control *)

Section CacheFacts.
Context {flag target : Type}.

(** C8: entering [CacheMode(new)] sets [CACHING_ENABLED] to [new];
    leaving at once gives back the globals and the instance as they were;
    leaving after any body, whether it returns or raises and whatever it
    did to the globals, gives [CACHING_ENABLED] the value it had at entry
    and lets the outcome of the body through. *)
Theorem CacheMode_restores_flag {A : Type} (g : @globals flag target)
    (new : flag)
    (body : @globals flag target -> @globals flag target * result A) :
  let entered := CacheMode_enter (CacheMode_init new) g in
  let after_body := body (snd entered) in
  CACHING_ENABLED (snd entered) = new
  /\ _DEFAULT_TARGET (snd entered) = _DEFAULT_TARGET g
  /\ CacheMode_exit (fst entered) (snd entered) = Ok (CacheMode_init new, g)
  /\ CacheMode_exit (fst entered) (fst after_body)
     = Ok (CacheMode_init new,
           mkGlobals (CACHING_ENABLED g) (_DEFAULT_TARGET (fst after_body)))
  /\ with_CacheMode new body g
     = (mkGlobals (CACHING_ENABLED g) (_DEFAULT_TARGET (fst after_body)),
        snd after_body).
Proof.
  destruct g as [f t]. simpl. repeat split.
  unfold with_CacheMode. simpl. by destruct (body _) as [g2 out].
Qed.

End CacheFacts.

(** ** The claims of Part I at concrete calls *)

(** Callback 7 is new and does not unpickle equally; 6 and 8 are new and
    do; 4 is registered already. *)
Lemma registration_validates_callbacks_witness :
  (exists m, fst (register_function_manglers unpickles pretty kernel0 [6; 7])
             = Raise (LoopyError (mangler_message (pretty m)))
             /\ m ∈ [6; 7] /\ (m ∉ function_manglers kernel0)
             /\ unpickles m = false)
  /\ (exists kernel',
        fst (register_function_manglers unpickles pretty kernel0 [6; 4; 8])
        = Ok kernel'
        /\ (forall m, m ∈ function_manglers kernel'
                      <-> m ∈ [6; 4; 8] \/ m ∈ function_manglers kernel0)).
Proof.
  destruct (registration_validates_callbacks unpickles (pretty : nat -> string))
    as (Hf & _ & _).
  destruct (Hf kernel0 [6; 7]) as [Hraise _].
  destruct (Hf kernel0 [6; 4; 8]) as [_ Hok].
  split.
  - apply Hraise. exists 7. split; [compute_done|]. split; [compute_done|].
    reflexivity.
  - destruct Hok as (kernel' & Hk & Hmem & _).
    + intros m Hm Hnew.
      apply elem_of_cons in Hm as [->|Hm]; [reflexivity|].
      apply elem_of_cons in Hm as [->|Hm]; [reflexivity|].
      apply list_elem_of_singleton in Hm as ->. reflexivity.
    + exists kernel'. split; [exact Hk|exact Hmem].
Defined.

Lemma registration_is_idempotent_witness :
  (forall m, m ∈ [4] -> m ∈ function_manglers kernel0)
  /\ register_function_manglers unpickles pretty kernel0 [4] = (Ok kernel0, [])
  /\ exists kernel', register_function_manglers unpickles pretty kernel0 [6]
                     = (Ok kernel', [6])
                     /\ function_manglers kernel' = 6 :: function_manglers kernel0.
Proof.
  destruct (registration_is_idempotent unpickles (pretty : nat -> string))
    as (Hf & _ & _).
  destruct (Hf kernel0 [4]) as (Hpresent & _ & _ & Hfront).
  assert (forall m, m ∈ [4] -> m ∈ function_manglers kernel0) as Hall.
  { intros m Hm. apply list_elem_of_singleton in Hm as ->. compute_done. }
  split; [exact Hall|]. split; [exact (Hpresent Hall)|].
  apply Hfront; [compute_done|reflexivity].
Defined.

Lemma set_options_rejects_malformed_calls_witness :
  heap0 !! options kernel0 = Some attrs0
  /\ (exists key', key' ∈ [("bogus", 1%Z)].*1 /\ attrs0 !! key' = None
       /\ snd (set_options no_legacy parse_options update_options
                 heap0 kernel0 [] [("bogus", 1%Z)])
          = Raise (ValueError ("unknown option '" +:+ key' +:+ "'")))
  /\ (exists kernel',
        snd (set_options no_legacy parse_options update_options
               heap0 kernel0 [] [("write_wrapper", 5%Z)]) = Ok kernel'
        /\ heap0 !! options kernel' = None
        /\ fst (set_options no_legacy parse_options update_options
                  heap0 kernel0 [] [("write_wrapper", 5%Z)])
           !! options kernel'
           = Some (setattrs attrs0 [("write_wrapper", 5%Z)]))
  /\ (exists kernel',
        snd (set_options no_legacy parse_options update_options
               heap0 kernel0 [7%Z] []) = Ok kernel'
        /\ heap0 !! options kernel' = None
        /\ fst (set_options no_legacy parse_options update_options
                  heap0 kernel0 [7%Z] []) !! options kernel'
           = Some (update_options attrs0 {[ "write_wrapper" := 7%Z ]})).
Proof.
  assert (heap0 !! options kernel0 = Some attrs0) as H by reflexivity.
  split; [exact H|]. split; [|split].
  - destruct (set_options_rejects_malformed_calls no_legacy parse_options
                update_options heap0 kernel0 attrs0 [] [("bogus", 1%Z)] H)
      as (_ & _ & Hunknown & _).
    apply (Hunknown eq_refl ltac:(discriminate) [("bogus", 1%Z)] "bogus").
    + reflexivity.
    + compute_done.
    + reflexivity.
  - destruct (set_options_rejects_malformed_calls no_legacy parse_options
                update_options heap0 kernel0 attrs0 []
                [("write_wrapper", 5%Z)] H)
      as (_ & _ & _ & _ & _ & Hreturns & _).
    apply (Hreturns eq_refl ltac:(discriminate) [("write_wrapper", 5%Z)]).
    + reflexivity.
    + repeat constructor. exists 0%Z. reflexivity.
  - destruct (set_options_rejects_malformed_calls no_legacy parse_options
                update_options heap0 kernel0 attrs0 [7%Z] [] H)
      as (_ & _ & _ & _ & _ & _ & Hreturns & _).
    apply (Hreturns eq_refl 7%Z {[ "write_wrapper" := 7%Z ]}); reflexivity.
Defined.

End LoopyProofs.

(** * Proofs, Part II *)

Module LinearizationProofs.
Import Linearization Examples.

Section GraphFacts.
Variable E : list (string * string).

Lemma path_chain a b : path E a b <-> exists l, chain E a l b.
Proof.
  split.
  - induction 1 as [a b H|a b c H _ [l IH]].
    + by exists [].
    + by exists (b :: l).
  - intros [l H]. revert a H. induction l as [|x l IH]; intros a H; simpl in H.
    + by apply path_edge.
    + destruct H as [H1 H2]. eapply path_step; eauto.
Qed.

Lemma path_trans a b c : path E a b -> path E b c -> path E a c.
Proof.
  induction 1 as [a b H|a b d H _ IH]; intros Hc.
  - by eapply path_step.
  - eapply path_step; eauto.
Qed.

Lemma connected_sound mid a b : connected E mid a b = true -> path E a b.
Proof.
  revert a b. induction mid as [|k mid IH]; intros a b; simpl.
  - unfold has_edge, inb. intros H. apply path_edge. by apply bool_decide_eq_true in H.
  - intros H. apply orb_true_iff in H as [H|H]; [by apply IH|].
    apply andb_true_iff in H as [H1 H2]. eapply path_trans; eauto.
Qed.

Lemma chain_split k mid l : forall a b,
  chain E a l b -> Forall (fun x => x ∈ k :: mid) l ->
  (exists l', chain E a l' b /\ Forall (fun x => x ∈ mid) l')
  \/ (exists l1 l2, chain E a l1 k /\ Forall (fun x => x ∈ mid) l1
                    /\ chain E k l2 b /\ Forall (fun x => x ∈ mid) l2).
Proof.
  induction l as [|x l IH]; intros a b Hc HF; simpl in Hc.
  - left. by exists [].
  - destruct Hc as [Hax Hc]. apply Forall_cons in HF as [Hx HF].
    destruct (decide (x = k)) as [->|Hne].
    + destruct (IH _ _ Hc HF) as [(l' & H1 & H2)|(l1 & l2 & _ & _ & H3 & H4)];
        right; exists []; eauto.
    + assert (x ∈ mid) as Hmid
        by (apply elem_of_cons in Hx as [?|?]; done).
      destruct (IH _ _ Hc HF) as [(l' & H1 & H2)|(l1 & l2 & H1 & H2 & H3 & H4)].
      * left. exists (x :: l'). split; [done|]. by constructor.
      * right. exists (x :: l1), l2. repeat split; try done. by constructor.
Qed.

Lemma connected_complete mid : forall l a b,
  chain E a l b -> Forall (fun x => x ∈ mid) l -> connected E mid a b = true.
Proof.
  induction mid as [|k mid IH]; intros l a b Hc HF; simpl.
  - destruct l as [|x l].
    + simpl in Hc. unfold has_edge, inb. by apply bool_decide_eq_true.
    + apply Forall_cons in HF as [Hx _]. by apply elem_of_nil in Hx.
  - apply orb_true_iff.
    destruct (chain_split _ _ _ _ _ Hc HF) as [(l' & H1 & H2)|(l1 & l2 & H1 & H2 & H3 & H4)].
    + left. eauto.
    + right. apply andb_true_iff. eauto.
Qed.

Lemma chain_nodes (nodes : list string) l : forall a b,
  (forall x y, (x, y) ∈ E -> y ∈ nodes) ->
  chain E a l b -> Forall (fun x => x ∈ nodes) l.
Proof.
  induction l as [|x l IH]; intros a b Hn Hc; simpl in Hc.
  - constructor.
  - destruct Hc as [H1 H2]. constructor; eauto.
Qed.
End GraphFacts.

Section BuilderFacts.
Variable reads writes : instruction -> list string.
Variable order_required : instruction -> instruction -> bool.

Lemma candidate_pairs_in insns a b :
  (a, b) ∈ candidate_pairs insns -> a ∈ insns /\ b ∈ insns.
Proof.
  unfold candidate_pairs. intros H.
  apply list_elem_of_omap in H as ([[i a'] [j b']] & Hin & Hf).
  destruct (_ || _); [|done]. injection Hf as -> ->.
  apply list_elem_of_In, in_prod_iff in Hin as [Ha Hb].
  apply list_elem_of_In in Ha, Hb.
  apply elem_of_zip_r in Ha, Hb. done.
Qed.

Lemma dependency_edges_ids insns a b :
  (a, b) ∈ dependency_edges reads writes order_required insns ->
  a ∈ map id insns /\ b ∈ map id insns.
Proof.
  unfold dependency_edges. rewrite elem_of_remove_dups.
  intros H. apply list_elem_of_In, in_map_iff in H as ([x y] & Heq & Hin).
  injection Heq as <- <-.
  apply list_elem_of_In, list_elem_of_filter in Hin as [_ Hin].
  apply candidate_pairs_in in Hin as [Hx Hy].
  split; apply list_elem_of_In, in_map; by apply list_elem_of_In.
Qed.

Lemma offending_iff insns a :
  a ∈ offending_instructions reads writes order_required insns
  <-> path (dependency_edges reads writes order_required insns) a a.
Proof.
  unfold offending_instructions. rewrite list_elem_of_filter. split.
  - intros [H _]. by apply connected_sound in H.
  - intros H. pose proof H as H'. apply path_chain in H' as [l Hc]. split.
    + eapply connected_complete; [exact Hc|].
      eapply chain_nodes; [|exact Hc]. intros x y Hxy.
      by apply dependency_edges_ids in Hxy as [_ ?].
    + inversion H as [? ? He|? b ? He _]; subst;
        by apply dependency_edges_ids in He as [? _].
Qed.
End BuilderFacts.

Section RealizerFacts.
Variable lanes : string -> nat.




















End RealizerFacts.

Lemma same_hw_class_sym t1 t2 : same_hw_class t1 t2 = same_hw_class t2 t1.
Proof.
  destruct t1, t2; simpl; try done.
  apply bool_decide_ext. split; congruence.
Qed.

Lemma hw_distinct_nil K : hw_distinct K [].
Proof. intros i j x y _ H. by rewrite lookup_nil in H. Qed.

Lemma hw_distinct_cons K x s :
  (forall y, y ∈ s -> same_hw_class (tag_of K x) (tag_of K y) = false) ->
  hw_distinct K s -> hw_distinct K (x :: s).
Proof.
  intros Hx Hs [|i] [|j] a b Hne Ha Hb; simpl in *.
  - done.
  - injection Ha as <-. apply Hx. by eapply list_elem_of_lookup_2.
  - injection Hb as <-. rewrite same_hw_class_sym. apply Hx.
    by eapply list_elem_of_lookup_2.
  - eapply (Hs i j); eauto.
Qed.

Lemma hw_distinct_tail K s : hw_distinct K s -> hw_distinct K (tail s).
Proof.
  destruct s as [|x s]; [done|]. intros Hs i j a b Hne Ha Hb. simpl in *.
  eapply (Hs (S i) (S j)); eauto.
Qed.

Lemma open_after_app (l1 l2 : list schedule_item) : forall s,
  open_after s (l1 ++ l2) = open_after s l1 ≫= fun s' => open_after s' l2.
Proof.
  induction l1 as [|it l1 IH]; intros s; simpl; [done|].
  destruct it; try apply IH.
  destruct s as [|y s]; [done|]. case_bool_decide; [apply IH|done].
Qed.

Section EngineFacts.
Variable domain_depends_on : string -> string -> bool.
Variable required_barrier :
  list schedule_item -> schedule_item -> option (barrier_scope * string).
Variable K : kernel.
Variable G : list (string * string).

Abbreviation replay' := (replay domain_depends_on required_barrier K G).
Abbreviation legal' := (legal domain_depends_on required_barrier K G).
Abbreviation admissible' := (admissible domain_depends_on K G).
Abbreviation reachable' :=
  (reachable domain_depends_on required_barrier K G).

Lemma replay_app (l1 l2 : list schedule_item) : forall st,
  replay' st (l1 ++ l2) = replay' st l1 ≫= fun st' => replay' st' l2.
Proof.
  induction l1 as [|it l1 IH]; intros st; simpl; [done|].
  destruct (legal' st it); [apply IH|done].
Qed.

Lemma replay_snoc l it st st' :
  replay' st (l ++ [it]) = Some st' ->
  exists st1, replay' st l = Some st1 /\ legal' st1 it = true
              /\ st' = apply_item st1 it.
Proof.
  rewrite replay_app. destruct (replay' st l) as [st1|]; [|done]. simpl.
  destruct (legal' st1 it) eqn:E; [|done]. intros [= <-]. eauto.
Qed.

Lemma items_apply_item st it : items (apply_item st it) = items st ++ [it].
Proof. by destruct it. Qed.

Lemma legal_admissible st it :
  legal' st it = true ->
  match it with Barrier _ _ => True | _ => admissible' st it = true end.
Proof.
  destruct it; simpl; try done; intros H.
  - by apply andb_true_iff in H as [? _].
  - by apply andb_true_iff in H as [? _].
Qed.

Lemma admissible_enter_classes st x y :
  admissible' st (EnterLoop x) = true -> y ∈ open_inames st ->
  same_hw_class (tag_of K x) (tag_of K y) = false.
Proof.
  simpl. intros H Hy.
  apply andb_true_iff in H as [H _]. apply andb_true_iff in H as [H _].
  apply andb_true_iff in H as [_ H]. rewrite forallb_forall in H.
  apply list_elem_of_In, H in Hy. unfold may_nest_inside in Hy.
  apply andb_true_iff in Hy as [_ Hy]. by apply negb_true_iff in Hy.
Qed.

(** The state that the engine carries agrees with the sequence. *)
Lemma replay_invariant (l : list schedule_item) : forall st,
  replay' initial_state l = Some st ->
  items st = l
  /\ (forall b, b ∈ scheduled st <-> RunInstruction b ∈ l)
  /\ open_after [] l = Some (open_inames st)
  /\ hw_distinct K (open_inames st).
Proof.
  induction l as [|it l IH] using rev_ind; intros st H.
  - injection H as <-. simpl. split; [done|].
    split; [|split; [done|apply hw_distinct_nil]].
    intros b. split; intros Hb; by apply elem_of_nil in Hb.
  - apply replay_snoc in H as (st1 & H1 & Hlegal & ->).
    destruct (IH _ H1) as (Hitems & Hsched & Hopen & Hhw).
    rewrite items_apply_item, Hitems. split; [done|].
    rewrite open_after_app, Hopen. simpl.
    apply legal_admissible in Hlegal.
    destruct it as [x|x|b|sc kd]; simpl in *.
    + (* enter *)
      split; [|split; [done|]].
      * intros b. rewrite Hsched, elem_of_app, list_elem_of_singleton.
        split; [tauto|]. intros [?|?]; [done|discriminate].
      * apply hw_distinct_cons; [|done]. intros y Hy.
        by apply (admissible_enter_classes st1).
    + (* leave *)
      destruct (open_inames st1) as [|y s] eqn:Eo; [done|].
      apply andb_true_iff in Hlegal as [Hx _].
      apply bool_decide_eq_true in Hx as ->. simpl.
      rewrite bool_decide_eq_true_2 by done.
      split; [|split; [done|]].
      * intros b. rewrite Hsched, elem_of_app, list_elem_of_singleton.
        split; [tauto|]. intros [?|?]; [done|discriminate].
      * by apply (hw_distinct_tail K (y :: s)).
    + (* run *)
      split; [|split; [done|done]].
      intros a. rewrite elem_of_cons, Hsched, elem_of_app, list_elem_of_singleton.
      split; [intros [->|?]; tauto|]. intros [?|[= ->]]; tauto.
    + split; [|split; [done|done]].
      intros b. rewrite Hsched, elem_of_app, list_elem_of_singleton.
      split; [tauto|]. intros [?|?]; [done|discriminate].
Qed.

(** Every prefix of a legal sequence is legal, and the next item is a
    legal transition of the state it reaches. *)
Lemma replay_prefix (sigma : list schedule_item) st n :
  replay' initial_state sigma = Some st ->
  exists st_n, replay' initial_state (take n sigma) = Some st_n
    /\ forall it, sigma !! n = Some it -> legal' st_n it = true.
Proof.
  intros H. rewrite <- (take_drop n sigma), replay_app in H.
  destruct (replay' initial_state (take n sigma)) as [st_n|] eqn:E; [|done].
  exists st_n. split; [done|]. intros it Hit. simpl in H.
  rewrite (drop_S _ _ _ Hit) in H. simpl in H.
  by destruct (legal' st_n it).
Qed.

Lemma accepted_replay sigma :
  accepted domain_depends_on required_barrier K G sigma = true ->
  exists st, replay' initial_state sigma = Some st /\ terminal K st = true.
Proof.
  unfold accepted. destruct (replay' initial_state sigma) as [st|]; [|done]. eauto.
Qed.

Lemma runnable_of_admissible st b :
  admissible' st (RunInstruction b) = true ->
  exists insn, insn ∈ instructions K /\ id insn = b /\ runnable G st insn = true.
Proof.
  simpl. intros H. apply existsb_exists in H as (insn & Hin & H).
  apply andb_true_iff in H as [Hid Hrun]. apply bool_decide_eq_true in Hid.
  exists insn. by rewrite list_elem_of_In.
Qed.

Lemma accepted_predecessors_first sigma n b a :
  accepted domain_depends_on required_barrier K G sigma = true ->
  sigma !! n = Some (RunInstruction b) -> (a, b) ∈ G ->
  exists m, m < n /\ sigma !! m = Some (RunInstruction a).
Proof.
  intros Hacc Hn Hab.
  apply accepted_replay in Hacc as (st & Hst & _).
  destruct (replay_prefix sigma st n Hst) as (st_n & Hpre & Hlegal).
  specialize (Hlegal _ Hn). apply legal_admissible in Hlegal.
  apply runnable_of_admissible in Hlegal as (insn & _ & Hid & Hrun).
  unfold runnable in Hrun. apply andb_true_iff in Hrun as [_ Hpreds].
  rewrite forallb_forall in Hpreds.
  assert (In a (predecessors G (id insn))) as Ha.
  { unfold predecessors. apply in_map_iff. exists (a, b). split; [done|].
    apply list_elem_of_In, list_elem_of_filter. by rewrite Hid. }
  apply Hpreds in Ha. unfold inb in Ha. apply bool_decide_eq_true in Ha.
  destruct (replay_invariant _ _ Hpre) as (_ & Hsched & _).
  apply Hsched in Ha. apply elem_of_take in Ha as (m & Hm & Hlt). eauto.
Qed.

Lemma accepted_no_same_class sigma n s :
  accepted domain_depends_on required_barrier K G sigma = true ->
  open_at sigma n = Some s -> hw_distinct K s.
Proof.
  intros Hacc Hs.
  apply accepted_replay in Hacc as (st & Hst & _).
  destruct (replay_prefix sigma st n Hst) as (st_n & Hpre & _).
  destruct (replay_invariant _ _ Hpre) as (_ & _ & Hopen & Hhw).
  unfold open_at in Hs. rewrite Hopen in Hs. by injection Hs as <-.
Qed.

Lemma accepted_balanced sigma :
  accepted domain_depends_on required_barrier K G sigma = true ->
  balanced sigma.
Proof.
  intros Hacc. apply accepted_replay in Hacc as (st & Hst & Hterm).
  destruct (replay_invariant _ _ Hst) as (_ & _ & Hopen & _).
  unfold terminal in Hterm. apply andb_true_iff in Hterm as [_ Hempty].
  apply bool_decide_eq_true in Hempty. unfold balanced. by rewrite Hopen, Hempty.
Qed.


Lemma accepted_stack_is_within sigma :
  accepted domain_depends_on required_barrier K G sigma = true ->
  stack_is_within K sigma.
Proof.
  intros Hacc n b Hn.
  apply accepted_replay in Hacc as (st & Hst & _).
  destruct (replay_prefix sigma st n Hst) as (st_n & Hpre & Hlegal).
  specialize (Hlegal _ Hn). apply legal_admissible in Hlegal.
  apply runnable_of_admissible in Hlegal as (insn & Hin & Hid & Hrun).
  destruct (replay_invariant _ _ Hpre) as (_ & _ & Hopen & _).
  exists (open_inames st_n), insn. repeat split; try done.
  - unfold runnable in Hrun. apply andb_true_iff in Hrun as [Hrun _].
    apply andb_true_iff in Hrun as [_ Ho]. rewrite forallb_forall in Ho.
    intros Hx. apply list_elem_of_In, Ho in Hx.
    by apply bool_decide_eq_true in Hx.
  - unfold runnable in Hrun. apply andb_true_iff in Hrun as [Hrun _].
    apply andb_true_iff in Hrun as [Hrun _].
    apply andb_true_iff in Hrun as [_ Hw]. rewrite forallb_forall in Hw.
    intros Hx. apply list_elem_of_In, Hw in Hx.
    by apply bool_decide_eq_true in Hx.
Qed.


Lemma reachable_step st it :
  reachable' st -> legal' st it = true -> reachable' (apply_item st it).
Proof.
  unfold reachable. intros Hst Hlegal.
  rewrite items_apply_item, replay_app, Hst. simpl. by rewrite Hlegal.
Qed.

Lemma candidates_legal st it :
  it ∈ candidates domain_depends_on required_barrier K G st ->
  legal' st it = true.
Proof. unfold candidates. rewrite list_elem_of_filter. tauto. Qed.

Lemma explore_accepted (budget : nat) : forall stack sigma,
  Forall reachable' stack ->
  sigma ∈ explore domain_depends_on required_barrier K G budget stack ->
  accepted domain_depends_on required_barrier K G sigma = true.
Proof.
  induction budget as [|budget IH]; intros stack sigma Hstack Hin; simpl in Hin.
  - by apply elem_of_nil in Hin.
  - destruct stack as [|st rest]; [by apply elem_of_nil in Hin|].
    apply Forall_cons in Hstack as [Hst Hrest].
    destruct (terminal K st) eqn:Hterm.
    + apply elem_of_cons in Hin as [->|Hin]; [|by eapply IH].
      unfold accepted. by rewrite Hst.
    + eapply IH; [|exact Hin]. apply Forall_app. split; [|done].
      apply Forall_forall. intros st' Hst'.
      apply list_elem_of_In, in_map_iff in Hst' as (it & <- & Hit).
      apply reachable_step; [done|]. apply candidates_legal.
      by apply list_elem_of_In.
Qed.

Lemma generate_loop_schedules_accepted cfg sigma :
  sigma ∈ generate_loop_schedules domain_depends_on required_barrier cfg K G ->
  accepted domain_depends_on required_barrier K G sigma = true.
Proof.
  unfold generate_loop_schedules. intros Hin.
  apply elem_of_take in Hin as (i & Hi & _).
  apply list_elem_of_lookup_2 in Hi.
  eapply explore_accepted; [|exact Hi]. by repeat constructor.
Qed.

Lemma get_one_scheduled_kernel_accepted cfg sigma :
  get_one_scheduled_kernel domain_depends_on required_barrier cfg K G
  = Success sigma ->
  accepted domain_depends_on required_barrier K G sigma = true.
Proof.
  unfold get_one_scheduled_kernel. intros H.
  destruct (generate_loop_schedules _ _ cfg K G) as [|s l] eqn:E; [done|].
  injection H as ->. apply (generate_loop_schedules_accepted cfg). rewrite E. left.
Qed.
Lemma engine_schedule_accepted sigma :
  engine_schedule domain_depends_on required_barrier K G sigma ->
  accepted domain_depends_on required_barrier K G sigma = true.
Proof.
  intros [H|[[cfg H]|[cfg H]]]; [done| |].
  - by eapply generate_loop_schedules_accepted.
  - by eapply get_one_scheduled_kernel_accepted.
Qed.

(** The Schedule Validator finds nothing to object to in a sequence of
    legal transitions that leaves no loop open. *)
Lemma validate_replay (rest : list schedule_item) : forall st st',
  (forall b, b ∈ scheduled st -> RunInstruction b ∈ items st) ->
  replay' st rest = Some st' -> open_inames st' = [] ->
  validate_from required_barrier K G (items st) (open_inames st) rest = true.
Proof.
  induction rest as [|it rest IH]; intros st st' Hinv Hrep Hend; simpl in Hrep.
  - injection Hrep as <-. simpl. by apply bool_decide_eq_true.
  - destruct (legal' st it) eqn:Hlegal; [|done].
    pose proof (legal_admissible _ _ Hlegal) as Hadm.
    specialize (IH (apply_item st it) st').
    rewrite items_apply_item in IH.
    assert (forall b, b ∈ scheduled (apply_item st it) ->
              RunInstruction b ∈ items st ++ [it]) as Hinv'.
    { intros b Hb. rewrite elem_of_app, list_elem_of_singleton.
      destruct it; simpl in Hb; try (left; by apply Hinv).
      apply elem_of_cons in Hb as [->|Hb]; [by right|left; by apply Hinv]. }
    specialize (IH Hinv' Hrep Hend).
    destruct it as [x|x|b|sc kd].
    + simpl. apply andb_true_iff. split; [|exact IH].
      apply forallb_forall. intros y Hy. apply negb_true_iff.
      apply (admissible_enter_classes st); [done|by apply list_elem_of_In].
    + simpl in *. destruct (open_inames st) as [|y stack]; [done|].
      apply andb_true_iff in Hlegal as [Hl Hbar].
      apply andb_true_iff in Hl as [Hx _].
      by rewrite Hx, Hbar.
    + simpl in Hlegal. apply andb_true_iff in Hlegal as [_ Hbar].
      apply runnable_of_admissible in Hadm as (insn & _ & <- & Hrun).
      simpl. rewrite Hbar. simpl in IH. rewrite IH.
      rewrite !andb_true_r. apply forallb_forall. intros a Ha.
      unfold runnable in Hrun. apply andb_true_iff in Hrun as [_ Hpreds].
      rewrite forallb_forall in Hpreds. apply Hpreds in Ha.
      unfold inb in *. apply bool_decide_eq_true in Ha.
      apply bool_decide_eq_true. by apply Hinv.
    + exact IH.
Qed.

Lemma engine_passes_validation sigma :
  engine_schedule domain_depends_on required_barrier K G sigma ->
  validate required_barrier K G sigma = true.
Proof.
  intros H. apply engine_schedule_accepted, accepted_replay in H
    as (st & Hst & Hterm).
  apply (validate_replay sigma initial_state st); [|done|].
  - intros b Hb. by apply elem_of_nil in Hb.
  - unfold terminal in Hterm. apply andb_true_iff in Hterm as [_ H].
    by apply bool_decide_eq_true in H.
Qed.

(** C1: in every schedule of the engine (an accepted sequence, one that
    [generate_loop_schedules] yields, one that [get_one_scheduled_kernel]
    returns), every predecessor, in the dependency graph, of the
    instruction of a run-instruction item is the instruction of a
    run-instruction item strictly earlier in the sequence. *)
Theorem predecessors_scheduled_first sigma n b a :
  engine_schedule domain_depends_on required_barrier K G sigma ->
  sigma !! n = Some (RunInstruction b) ->
  (a, b) ∈ G ->
  exists m, m < n /\ sigma !! m = Some (RunInstruction a).
Proof.
  intros H. apply accepted_predecessors_first. by apply engine_schedule_accepted.
Qed.

(** C2: in every schedule of the engine the enter-loop and leave-loop
    items are properly nested and balanced (a leave-loop item closes the
    innermost open loop and no loop is left open at the end), and at every
    run-instruction item the inames of the stack of open loops are exactly
    the within inames of the instruction. *)
Theorem loops_balanced_and_stack_is_within sigma :
  engine_schedule domain_depends_on required_barrier K G sigma ->
  balanced sigma /\ stack_is_within K sigma.
Proof.
  intros H. apply engine_schedule_accepted in H. split.
  - by apply accepted_balanced.
  - by apply accepted_stack_is_within.
Qed.

(** C3: at no position of a schedule of the engine does the stack of open
    inames hold, at two places, inames of the same hardware-parallel
    class. *)
Theorem no_same_class_nesting sigma n s i j x y :
  engine_schedule domain_depends_on required_barrier K G sigma ->
  open_at sigma n = Some s ->
  i <> j -> s !! i = Some x -> s !! j = Some y ->
  same_hw_class (tag_of K x) (tag_of K y) = false.
Proof.
  intros H Hs Hne Hx Hy. apply engine_schedule_accepted in H.
  by apply (accepted_no_same_class sigma n s H Hs i j).
Qed.

End EngineFacts.

(** The only failure of the realizer is the rejection of an operator. *)
Lemma realize_expr_failure lanes (K : kernel) (owner : instruction) (e : expr) :
  forall within st f,
    realize_expr lanes K owner within e st = Failure f ->
    exists op, f = ReductionRejected (id owner) op.
Proof.
  induction e as [z|v|a IHa i IHi|o a IHa b IHb|op|o a IHa b IHb
                   |op reduced body IH]; intros within st f H; simpl in H;
    try done.
  - destruct (realize_expr _ _ _ _ a st) as [[[a' da] st1]|] eqn:Ea;
      [|injection H as <-; by eapply IHa].
    destruct (realize_expr _ _ _ _ i st1) as [[[i' di] st2]|] eqn:Ei;
      [done|injection H as <-; by eapply IHi].
  - destruct (realize_expr _ _ _ _ a st) as [[[a' da] st1]|] eqn:Ea;
      [|injection H as <-; by eapply IHa].
    destruct (realize_expr _ _ _ _ b st1) as [[[b' db] st2]|] eqn:Eb;
      [done|injection H as <-; by eapply IHb].
  - destruct (realize_expr _ _ _ _ a st) as [[[a' da] st1]|] eqn:Ea;
      [|injection H as <-; by eapply IHa].
    destruct (realize_expr _ _ _ _ b st1) as [[[b' db] st2]|] eqn:Eb;
      [done|injection H as <-; by eapply IHb].
  - destruct (realize_expr _ _ _ _ body st) as [[[b' db] st1]|] eqn:Eb;
      [|injection H as <-; by eapply IH].
    destruct (negb _).
    + injection H as <-. eauto.
    + by destruct (choose_strategy K reduced).
Qed.

Lemma realize_reduction_failure lanes (K : kernel) f :
  realize_reduction lanes K = Failure f ->
  exists insn op, f = ReductionRejected insn op.
Proof.
  unfold realize_reduction.
  assert (forall insns st f,
            realize_instructions lanes K insns st = Failure f ->
            exists insn op, f = ReductionRejected insn op) as Hall.
  { induction insns as [|insn rest IH]; intros st f' H; simpl in H; [done|].
    unfold realize_instruction in H.
    destruct (realize_expr _ _ _ _ _ st) as [[[e' d] st1]|] eqn:Ee.
    - by eapply IH.
    - injection H as <-. apply realize_expr_failure in Ee as [op ->]. eauto. }
  destruct (realize_instructions _ _ _ _) as [st|f'] eqn:E; [done|].
  intros [= <-]. by eapply Hall.
Qed.

(** The pipeline never ends in an internal-consistency failure. *)
Lemma linearize_passes_validation reads writes order_required lanes
    domain_depends_on required_barrier cfg K :
  linearize reads writes order_required lanes domain_depends_on
    required_barrier cfg K <> Failure InternalInvariantViolation.
Proof.
  unfold linearize, build_dependency_graph.
  destruct (offending_instructions reads writes order_required
              (instructions K)); [|done].
  destruct (realize_reduction lanes K) as [K'|f] eqn:Er.
  2:{ apply realize_reduction_failure in Er as (insn & op & ->). done. }
  destruct (generate_loop_schedules _ _ cfg K' _) as [|sigma l] eqn:Eg; [done|].
  rewrite (proj2 (forallb_forall _ _)); [done|].
  intros sigma' Hin. apply (engine_passes_validation domain_depends_on).
  right. left.
  exists cfg. rewrite Eg. by apply list_elem_of_In.
Qed.


(** C6: when the must-precede edges derived from the instructions contain
    a cycle, the Dependency Graph Builder fails with the structural error
    that names the instructions on a cycle, and they are instructions of
    the kernel; the pipeline then fails with the same error, whatever the
    configuration, and gives no schedule. *)
Theorem dependency_cycle_is_fatal reads writes order_required (K : kernel) :
  (exists a,
     path (dependency_edges reads writes order_required (instructions K)) a a) ->
  exists offending,
    build_dependency_graph reads writes order_required K
    = Failure (DependencyCycle offending)
    /\ offending <> []
    /\ (forall a, a ∈ offending
          <-> path (dependency_edges reads writes order_required
                      (instructions K)) a a)
    /\ (forall a, a ∈ offending -> a ∈ map id (instructions K))
    /\ forall lanes domain_depends_on required_barrier cfg,
         linearize reads writes order_required lanes domain_depends_on
           required_barrier cfg K
         = Failure (DependencyCycle offending).
Proof.
  intros [a Ha].
  exists (offending_instructions reads writes order_required (instructions K)).
  assert (a ∈ offending_instructions reads writes order_required
                (instructions K)) as Hin by (by apply offending_iff).
  assert (build_dependency_graph reads writes order_required K
          = Failure (DependencyCycle
                       (offending_instructions reads writes order_required
                          (instructions K)))) as Hfail.
  { unfold build_dependency_graph.
    destruct (offending_instructions _ _ _ _) as [|o l]; [|done].
    by apply elem_of_nil in Hin. }
  split; [exact Hfail|]. split.
  { intros E. rewrite E in Hin. by apply elem_of_nil in Hin. }
  split; [intros b; apply offending_iff|]. split.
  { intros b Hb. unfold offending_instructions in Hb.
    by apply list_elem_of_filter in Hb as [_ ?]. }
  intros lanes ddo rb cfg. unfold linearize. by rewrite Hfail.
Qed.

(** ** The claims of Part II at concrete kernels *)

Lemma predecessors_scheduled_first_witness :
  engine_schedule independent_domains no_hazard K_ab G_ab sigma_ab
  /\ sigma_ab !! 3 = Some (RunInstruction "B")
  /\ ("A", "B") ∈ G_ab
  /\ exists m, m < 3 /\ sigma_ab !! m = Some (RunInstruction "A").
Proof.
  assert (engine_schedule independent_domains no_hazard K_ab G_ab sigma_ab)
    as H1 by (right; right; exists cfg_first; vm_compute; reflexivity).
  assert (sigma_ab !! 3 = Some (RunInstruction "B")) as H2 by reflexivity.
  assert (("A", "B") ∈ G_ab) as H3 by compute_done.
  split; [exact H1|]. split; [exact H2|]. split; [exact H3|].
  exact (predecessors_scheduled_first independent_domains no_hazard
           K_ab G_ab sigma_ab 3 "B" "A" H1 H2 H3).
Defined.

Lemma loops_balanced_and_stack_is_within_witness :
  engine_schedule independent_domains no_hazard K_ab G_ab sigma_ab
  /\ balanced sigma_ab /\ stack_is_within K_ab sigma_ab.
Proof.
  assert (engine_schedule independent_domains no_hazard K_ab G_ab sigma_ab)
    as H1 by (right; right; exists cfg_first; vm_compute; reflexivity).
  split; [exact H1|].
  exact (loops_balanced_and_stack_is_within independent_domains no_hazard
           K_ab G_ab sigma_ab H1).
Defined.

(** An instruction is not run while a loop that it is not within is open. *)
Lemma run_in_foreign_loop_not_accepted :
  accepted independent_domains no_hazard K_ab G_ab
    [EnterLoop "i"; RunInstruction "A"; RunInstruction "B"; LeaveLoop "i"]
  = false.
Proof. vm_compute. reflexivity. Qed.

Lemma no_same_class_nesting_witness :
  engine_schedule independent_domains no_hazard K_hw [] sigma_hw
  /\ open_at sigma_hw 2 = Some ["l"; "g"]
  /\ same_hw_class (tag_of K_hw "l") (tag_of K_hw "g") = false.
Proof.
  assert (engine_schedule independent_domains no_hazard K_hw [] sigma_hw)
    as H1 by (left; vm_compute; reflexivity).
  assert (open_at sigma_hw 2 = Some ["l"; "g"]) as H2 by reflexivity.
  split; [exact H1|]. split; [exact H2|].
  apply (no_same_class_nesting independent_domains no_hazard K_hw []
           sigma_hw 2 ["l"; "g"] 0 1 "l" "g" H1 H2).
  - discriminate.
  - reflexivity.
  - reflexivity.
Defined.

(** Two local-parallel loops around one instruction: no schedule. *)
Lemma two_local_loops_unschedulable :
  generate_loop_schedules independent_domains no_hazard cfg_all K_two_local []
  = [].
Proof. vm_compute. reflexivity. Qed.


Lemma dependency_cycle_is_fatal_witness :
  (exists a,
     path (dependency_edges no_accesses no_accesses no_order
             (instructions K_cycle)) a a)
  /\ exists offending,
       build_dependency_graph no_accesses no_accesses no_order K_cycle
       = Failure (DependencyCycle offending)
       /\ offending <> [].
Proof.
  assert (exists a,
            path (dependency_edges no_accesses no_accesses no_order
                    (instructions K_cycle)) a a) as H.
  { exists "P". apply (path_step _ "P" "Q" "P"); [compute_done|].
    apply path_edge. compute_done. }
  split; [exact H|].
  destruct (dependency_cycle_is_fatal no_accesses no_accesses no_order
              K_cycle H) as (offending & Hfail & Hne & _).
  exists offending. split; [exact Hfail|exact Hne].
Defined.

End LinearizationProofs.

(** * Further proofs, Part I *)

Module LoopyLaws.
Import Loopy Examples LoopyProofs.

(** ** Library registration *)

Section RegistrationLaws.
Context {callback : Type} `{EqDecision callback}.
Variable unpickles_equally : callback -> bool.
Variable str : callback -> string.

Abbreviation loop := (register_loop unpickles_equally str).
Lemma NoDup_fresh_callbacks (manglers present : list callback) :
  NoDup (fresh_callbacks present manglers).
Proof.
  revert present. induction manglers as [|a rest IH]; intros present; simpl.
  - constructor.
  - case_bool_decide as Ha; [apply IH|].
    apply NoDup_cons_2; [|apply IH].
    rewrite (elem_of_fresh_callbacks unpickles_equally str).
    intros [_ Hn]. apply Hn. left.
Qed.

Lemma register_loop_checked fmt (manglers present checked : list callback) :
  loop fmt present checked manglers
  = (fst (loop fmt present [] manglers),
     checked ++ snd (loop fmt present [] manglers)).
Proof.
  revert present checked.
  induction manglers as [|a rest IH]; intros present checked; simpl.
  - by rewrite app_nil_r.
  - case_bool_decide as Ha; [apply IH|].
    destruct (unpickles_equally a); [|done].
    rewrite (IH _ (checked ++ [a])), (IH _ [a]). simpl.
    by rewrite <- app_assoc.
Qed.

Lemma register_loop_app fmt (ms1 ms2 present checked : list callback) :
  loop fmt present checked (ms1 ++ ms2)
  = match loop fmt present checked ms1 with
    | (Ok l, tr) => loop fmt l tr ms2
    | (Raise e, tr) => (Raise e, tr)
    end.
Proof.
  revert present checked.
  induction ms1 as [|a rest IH]; intros present checked; simpl; [done|].
  case_bool_decide as Ha; [apply IH|].
  destruct (unpickles_equally a); [apply IH|done].
Qed.

Lemma register_loop_trace fmt (manglers present : list callback) :
  exists n, snd (loop fmt present [] manglers)
            = take n (fresh_callbacks present manglers)
    /\ (forall l, fst (loop fmt present [] manglers) = Ok l ->
          snd (loop fmt present [] manglers) = fresh_callbacks present manglers
          /\ l = reverse (fresh_callbacks present manglers) ++ present).
Proof.
  destruct (decide (Forall (fun m => unpickles_equally m = true)
                      (fresh_callbacks present manglers))) as [HF|HF].
  - rewrite (register_loop_ok unpickles_equally str fmt _ _ _ HF). simpl.
    exists (length (fresh_callbacks present manglers)).
    rewrite firstn_all. split; [done|]. by intros l [= <-].
  - destruct (register_loop_raise unpickles_equally str fmt manglers present [] HF)
      as (pre & m & post & E & _ & _ & R).
    rewrite R. simpl. exists (S (length pre)). split; [|done].
    rewrite E. rewrite take_app_ge by lia.
    replace (S (length pre) - length pre) with 1 by lia. done.
Qed.

Lemma keeps_distinct_generic register field fmt
    (set : LoopKernel callback -> list callback -> LoopKernel callback) :
  (forall kernel manglers,
      register kernel manglers
      = finish kernel (set kernel)
          (loop fmt (field kernel) [] manglers)) ->
  (forall kernel l, field (set kernel l) = l) ->
  keeps_distinct register field.
Proof.
  intros Hreg Hfield kernel manglers kernel' Hnd Hok.
  rewrite Hreg in Hok. unfold finish in Hok.
  destruct (loop fmt (field kernel) [] manglers) as [[l|e] tr] eqn:E; [|done].
  simpl in Hok. injection Hok as <-. rewrite Hfield.
  destruct (register_loop_trace fmt manglers (field kernel)) as (_ & _ & Hl).
  rewrite E in Hl. destruct (Hl l eq_refl) as [_ ->].
  apply NoDup_app. split; [rewrite reverse_Permutation; apply NoDup_fresh_callbacks|].
  split; [|done]. intros x Hx.
  apply elem_of_reverse, (elem_of_fresh_callbacks unpickles_equally str) in Hx.
  tauto.
Qed.

Lemma checks_once_generic register field fmt
    (set : LoopKernel callback -> list callback -> LoopKernel callback) :
  (forall kernel manglers,
      register kernel manglers
      = finish kernel (set kernel)
          (loop fmt (field kernel) [] manglers)) ->
  (forall kernel l, field (set kernel l) = l) ->
  checks_once register field.
Proof.
  intros Hreg Hfield kernel manglers.
  destruct (register_loop_trace fmt manglers (field kernel)) as (n & Hn & Hl).
  rewrite Hreg. unfold finish.
  destruct (loop fmt (field kernel) [] manglers) as [[l|e] tr] eqn:E;
    simpl in *; (split; [rewrite Hn; eapply sublist_NoDup;
               [apply NoDup_fresh_callbacks|apply sublist_take]|]).
  - intros kernel' [= <-]. rewrite Hfield.
    destruct (Hl l eq_refl) as [-> ->]. done.
  - done.
Qed.

Lemma composes_generic register field fmt
    (set : LoopKernel callback -> list callback -> LoopKernel callback) :
  (forall kernel manglers,
      register kernel manglers
      = finish kernel (set kernel)
          (loop fmt (field kernel) [] manglers)) ->
  (forall kernel l, field (set kernel l) = l) ->
  (forall kernel l l', set (set kernel l) l' = set kernel l') ->
  composes_sequentially register.
Proof.
  intros Hreg Hfield Hset kernel ms1 ms2.
  rewrite !Hreg, register_loop_app. unfold finish.
  destruct (loop fmt (field kernel) [] ms1) as [[l|e] tr] eqn:E; simpl; [|done].
  rewrite Hreg, Hfield. rewrite (register_loop_checked fmt ms2 l tr).
  unfold finish.
  destruct (loop fmt l [] ms2) as [[l'|e'] tr']; simpl; [|done].
  by rewrite Hset.
Qed.

Lemma first_failure_generic register field fmt
    (set : LoopKernel callback -> list callback -> LoopKernel callback) :
  (forall kernel manglers,
      register kernel manglers
      = finish kernel (set kernel)
          (loop fmt (field kernel) [] manglers)) ->
  raises_at_first_failure unpickles_equally str register field fmt.
Proof.
  intros Hreg kernel pre m post Hpre Hnew Hbad.
  rewrite Hreg, register_loop_app.
  assert (Forall (fun x => unpickles_equally x = true)
            (fresh_callbacks (field kernel) pre)) as HF.
  { apply Forall_forall. intros x Hx.
    apply (elem_of_fresh_callbacks unpickles_equally str) in Hx as [Hin Hx].
    destruct (Hpre x Hin); [done|done]. }
  rewrite (register_loop_ok unpickles_equally str fmt _ _ _ HF). simpl.
  rewrite bool_decide_eq_false_2, Hbad; [done|].
  rewrite elem_of_app, elem_of_reverse,
    (elem_of_fresh_callbacks unpickles_equally str).
  intros [[Hin _]|Hin]; [|done].
  destruct (Hpre m Hin); [done|congruence].
Qed.

(** X1: when the list of a kernel has no duplicates, the list of the kernel
    that a [register_*] function returns has none, whatever the list of
    callbacks it was called with. *)
Theorem registration_keeps_lists_distinct :
  keeps_distinct (register_function_manglers unpickles_equally str)
    function_manglers
  /\ keeps_distinct (register_symbol_manglers unpickles_equally str)
    symbol_manglers
  /\ keeps_distinct (register_preamble_generators unpickles_equally str)
    preamble_generators.
Proof.
  split; [|split].
  - by apply (keeps_distinct_generic _ _ mangler_message
      (fun k l => mkLoopKernel (options k) (preamble_generators k)
                    (symbol_manglers k) l)).
  - by apply (keeps_distinct_generic _ _ mangler_message
      (fun k l => mkLoopKernel (options k) (preamble_generators k)
                    l (function_manglers k))).
  - by apply (keeps_distinct_generic _ _ pgen_message
      (fun k l => mkLoopKernel (options k) l
                    (symbol_manglers k) (function_manglers k))).
Qed.

(** X2: a call of a [register_*] function calls [unpickles_equally] at most
    once for a callback, however often the callback is in the list; when
    the call returns, what it has put in front of the list is what it has
    checked, the last one first. *)
Theorem registration_checks_once :
  checks_once (register_function_manglers unpickles_equally str)
    function_manglers
  /\ checks_once (register_symbol_manglers unpickles_equally str)
    symbol_manglers
  /\ checks_once (register_preamble_generators unpickles_equally str)
    preamble_generators.
Proof.
  split; [|split].
  - by apply (checks_once_generic _ _ mangler_message
      (fun k l => mkLoopKernel (options k) (preamble_generators k)
                    (symbol_manglers k) l)).
  - by apply (checks_once_generic _ _ mangler_message
      (fun k l => mkLoopKernel (options k) (preamble_generators k)
                    l (function_manglers k))).
  - by apply (checks_once_generic _ _ pgen_message
      (fun k l => mkLoopKernel (options k) l
                    (symbol_manglers k) (function_manglers k))).
Qed.

(** X3: registering [ms1] and then, in the kernel returned, [ms2] gives the
    kernel and the checks of registering [ms1 ++ ms2]; when registering
    [ms1] raises, registering [ms1 ++ ms2] raises the same. *)
Theorem registration_composes :
  composes_sequentially (register_function_manglers unpickles_equally str)
  /\ composes_sequentially (register_symbol_manglers unpickles_equally str)
  /\ composes_sequentially (register_preamble_generators unpickles_equally str).
Proof.
  split; [|split].
  - by apply (composes_generic _ function_manglers mangler_message
      (fun k l => mkLoopKernel (options k) (preamble_generators k)
                    (symbol_manglers k) l)).
  - by apply (composes_generic _ symbol_manglers mangler_message
      (fun k l => mkLoopKernel (options k) (preamble_generators k)
                    l (function_manglers k))).
  - by apply (composes_generic _ preamble_generators pgen_message
      (fun k l => mkLoopKernel (options k) l
                    (symbol_manglers k) (function_manglers k))).
Qed.

(** X4: a [register_*] function raises the [LoopyError] of the first
    callback of the list that is new and does not unpickle equally; it has
    then checked the new callbacks before it and this one, and returns no
    kernel although the callbacks before it were acceptable. *)
Theorem registration_raises_at_first_failure :
  raises_at_first_failure unpickles_equally str
    (register_function_manglers unpickles_equally str)
    function_manglers mangler_message
  /\ raises_at_first_failure unpickles_equally str
    (register_symbol_manglers unpickles_equally str)
    symbol_manglers mangler_message
  /\ raises_at_first_failure unpickles_equally str
       (register_preamble_generators unpickles_equally str)
       preamble_generators pgen_message.
Proof.
  split; [|split].
  - by apply (first_failure_generic _ _ _
      (fun k l => mkLoopKernel (options k) (preamble_generators k)
                    (symbol_manglers k) l)).
  - by apply (first_failure_generic _ _ _
      (fun k l => mkLoopKernel (options k) (preamble_generators k)
                    l (function_manglers k))).
  - by apply (first_failure_generic _ _ _
      (fun k l => mkLoopKernel (options k) l
                    (symbol_manglers k) (function_manglers k))).
Qed.


End RegistrationLaws.

(** ** set_options *)

Section SetOptionsLaws.
Context {callback value : Type}.
Variable _apply_legacy_map :
  list (string * value) -> result (list (string * value)).
Variable make_options : value -> result (gmap string value).
Variable Options_update :
  gmap string value -> gmap string value -> gmap string value.

Abbreviation set_options' :=
  (set_options (callback:=callback) _apply_legacy_map make_options Options_update).

Lemma setattrs_app (kw1 kw2 : list (string * value)) (attrs : gmap string value) :
  setattrs attrs (kw1 ++ kw2) = setattrs (setattrs attrs kw1) kw2.
Proof. unfold setattrs. apply foldl_app. Qed.

Lemma setattrs_dom (kwargs : list (string * value)) : forall attrs,
  Forall (fun kv => is_Some (attrs !! kv.1)) kwargs ->
  dom (setattrs attrs kwargs) = dom attrs.
Proof.
  induction kwargs as [|[k v] rest IH]; intros attrs HF; [done|].
  apply Forall_cons in HF as [Hk HF]. simpl in Hk.
  change (setattrs attrs ((k, v) :: rest))
    with (setattrs (<[k := v]> attrs) rest).
  rewrite IH.
  - rewrite dom_insert_L. apply subseteq_union_1_L, singleton_subseteq_l.
    by apply elem_of_dom.
  - eapply Forall_impl; [exact HF|]. intros [k' v'] [x Hx]. simpl in *.
    destruct (decide (k = k')) as [->|Hne].
    + rewrite lookup_insert_eq. eauto.
    + rewrite lookup_insert_ne by done. eauto.
Qed.

Lemma setattr_loop_first_unknown (pre post : list (string * value))
    (key : string) (val : value) : forall attrs,
  Forall (fun kv => is_Some (attrs !! kv.1)) pre ->
  attrs !! key = None ->
  setattr_loop attrs (pre ++ (key, val) :: post)
  = (setattrs attrs pre,
     Some (ValueError ("unknown option '" +:+ key +:+ "'"))).
Proof.
  induction pre as [|[k v] rest IH]; intros attrs HF Hnone; simpl.
  - by rewrite Hnone.
  - apply Forall_cons in HF as [[x Hx] HF]. simpl in Hx. rewrite Hx.
    change (setattrs attrs ((k, v) :: rest))
      with (setattrs (<[k := v]> attrs) rest).
    apply IH.
    + eapply Forall_impl; [exact HF|]. intros [k' v'] [y Hy]. simpl in *.
      destruct (decide (k = k')) as [->|Hne].
      * rewrite lookup_insert_eq. eauto.
      * rewrite lookup_insert_ne by done. eauto.
    + rewrite lookup_insert_ne; [done|]. intros ->. congruence.
Qed.

(** What a call that returns has done. *)
Lemma set_options_success (h h' : gmap loc (gmap string value))
    (kernel kernel' : LoopKernel callback) (attrs : gmap string value)
    (args : list value) (kwargs : list (string * value)) :
  h !! options kernel = Some attrs ->
  set_options' h kernel args kwargs = (h', Ok kernel') ->
  h !! options kernel' = None
  /\ (forall l, is_Some (h !! l) -> h' !! l = h !! l)
  /\ ((exists kwargs', kwargs <> [] /\ args = []
         /\ _apply_legacy_map kwargs = Ok kwargs'
         /\ Forall (fun kv => is_Some (attrs !! kv.1)) kwargs'
         /\ h' !! options kernel' = Some (setattrs attrs kwargs'))
      \/ (exists arg other, kwargs = [] /\ args = [arg]
         /\ make_options arg = Ok other
         /\ h' !! options kernel' = Some (Options_update attrs other))).
Proof.
  intros Hattrs.
  assert (h !! fresh (dom h) = None) as Hfresh.
  { apply not_elem_of_dom. apply is_fresh. }
  assert (forall l x y, is_Some (h !! l) ->
            <[fresh (dom h) := x]> (<[fresh (dom h) := y]> h) !! l = h !! l)
    as Hkeep.
  { intros l x y [z Hz]. rewrite insert_insert_eq.
    apply lookup_insert_ne. intros <-. congruence. }
  unfold set_options. rewrite Hattrs. simpl.
  destruct args as [|arg args]; destruct kwargs as [|kv kwargs]; simpl;
    try done.
  - destruct (_apply_legacy_map (kv :: kwargs)) as [kwargs'|e] eqn:Hmap;
      [|done].
    destruct (decide (Forall (fun kv => is_Some (attrs !! kv.1)) kwargs'))
      as [HF|HF].
    + rewrite (setattr_loop_ok _ _ HF). intros [= <- <-]. simpl.
      split; [done|]. split; [by intros; apply Hkeep|]. left.
      exists kwargs'. repeat (split; [done|]).
      rewrite insert_insert_eq. apply lookup_insert_eq.
    + destruct (setattr_loop_unknown _ _ HF) as (a' & k' & R & _). by rewrite R.
  - destruct args as [|arg' args]; [|done].
    destruct (make_options arg) as [other|e] eqn:Hmk; [|done].
    intros [= <- <-]. simpl.
    split; [done|]. split; [by intros; apply Hkeep|]. right.
    exists arg, other. repeat (split; [done|]).
    rewrite insert_insert_eq. apply lookup_insert_eq.
Qed.

(** X6: the option that the [ValueError] of [set_options] names is the
    first keyword, in the order of the mapped keyword arguments, that is
    no attribute of the options. *)
Theorem set_options_names_first_unknown_option
    (h : gmap loc (gmap string value)) (kernel : LoopKernel callback)
    (attrs : gmap string value) (kwargs pre post : list (string * value))
    (key : string) (val : value) :
  h !! options kernel = Some attrs ->
  kwargs <> [] ->
  _apply_legacy_map kwargs = Ok (pre ++ (key, val) :: post) ->
  Forall (fun kv => is_Some (attrs !! kv.1)) pre ->
  attrs !! key = None ->
  snd (set_options' h kernel [] kwargs)
  = Raise (ValueError ("unknown option '" +:+ key +:+ "'")).
Proof.
  intros Hattrs Hne Hmap Hpre Hnone. unfold set_options. rewrite Hattrs.
  destruct kwargs as [|kv kwargs]; [done|]. simpl. rewrite Hmap.
  by rewrite setattr_loop_first_unknown.
Qed.

(** X7: a call of [set_options] with keyword arguments that returns gives
    options with the attribute names of the kernel's options: it neither
    adds nor removes an option. *)
Theorem set_options_keeps_option_names
    (h h' : gmap loc (gmap string value))
    (kernel kernel' : LoopKernel callback) (attrs : gmap string value)
    (args : list value) (kwargs : list (string * value)) :
  h !! options kernel = Some attrs ->
  kwargs <> [] ->
  set_options' h kernel args kwargs = (h', Ok kernel') ->
  exists attrs', h' !! options kernel' = Some attrs'
                 /\ dom attrs' = dom attrs.
Proof.
  intros Hattrs Hne Hcall.
  destruct (set_options_success _ _ _ _ _ _ _ Hattrs Hcall)
    as (_ & _ & [(kw' & _ & _ & _ & HF & Hnew)|(arg & other & -> & _)]);
    [|done].
  eexists. split; [exact Hnew|]. by apply setattrs_dom.
Qed.

(** X8: the kernels of two calls of [set_options] in a row and the kernel
    given refer to three different [Options] instances; the second call
    leaves the options of the first two as they were; with keyword
    arguments both times, the last kernel has the values of the first
    call and then those of the second set. *)
Theorem set_options_never_shares_options
    (h h1 h2 : gmap loc (gmap string value))
    (kernel kernel1 kernel2 : LoopKernel callback)
    (attrs : gmap string value)
    (args1 args2 : list value) (kwargs1 kwargs2 : list (string * value)) :
  h !! options kernel = Some attrs ->
  set_options' h kernel args1 kwargs1 = (h1, Ok kernel1) ->
  set_options' h1 kernel1 args2 kwargs2 = (h2, Ok kernel2) ->
  options kernel1 <> options kernel
  /\ options kernel2 <> options kernel
  /\ options kernel2 <> options kernel1
  /\ h2 !! options kernel = Some attrs
  /\ h2 !! options kernel1 = h1 !! options kernel1
  /\ (forall kw1 kw2,
        kwargs1 <> [] -> kwargs2 <> [] ->
        _apply_legacy_map kwargs1 = Ok kw1 ->
        _apply_legacy_map kwargs2 = Ok kw2 ->
        h2 !! options kernel2 = Some (setattrs attrs (kw1 ++ kw2))).
Proof.
  intros Hattrs Hcall1 Hcall2.
  destruct (set_options_success _ _ _ _ _ _ _ Hattrs Hcall1)
    as (Hfresh1 & Hkeep1 & Hnew1).
  assert (exists attrs1, h1 !! options kernel1 = Some attrs1) as [attrs1 Hattrs1].
  { destruct Hnew1 as [(kw & _ & _ & _ & _ & E)|(a & o & _ & _ & _ & E)]; eauto. }
  destruct (set_options_success _ _ _ _ _ _ _ Hattrs1 Hcall2)
    as (Hfresh2 & Hkeep2 & Hnew2).
  assert (h1 !! options kernel = Some attrs) as Hk1.
  { rewrite Hkeep1; [done|]. rewrite Hattrs. eauto. }
  split; [intros E; rewrite E in Hfresh1; congruence|].
  split; [intros E; rewrite E in Hfresh2; congruence|].
  split; [intros E; rewrite E in Hfresh2; congruence|].
  split; [rewrite Hkeep2; [done|]; rewrite Hk1; eauto|].
  split; [apply Hkeep2; rewrite Hattrs1; eauto|].
  intros kw1 kw2 Hne1 Hne2 Hm1 Hm2.
  destruct Hnew1 as [(kw & _ & _ & Hm & _ & E1)|(a & o & -> & _)]; [|done].
  destruct Hnew2 as [(kw' & _ & _ & Hm' & _ & E2)|(a & o & -> & _)]; [|done].
  rewrite Hm1 in Hm. rewrite Hm2 in Hm'. injection Hm as <-. injection Hm' as <-.
  rewrite E1 in Hattrs1. injection Hattrs1 as <-.
  by rewrite E2, setattrs_app.
Qed.
End SetOptionsLaws.

(** ** Cache control and make_copy_kernel *)

Section CacheLaws.
Context {flag target : Type}.

(** X9: with one [CacheMode] block inside another, the inner block gives
    back the flag of the outer block and the outer block the flag that was
    there before both. *)
Theorem nested_CacheModes_restore_in_turn {A : Type}
    (g : @globals flag target) (outer inner : flag)
    (body : @globals flag target -> @globals flag target * result A) :
  let g_outer := mkGlobals outer (_DEFAULT_TARGET g) in
  let g_inner := mkGlobals inner (_DEFAULT_TARGET g) in
  let after_body := body g_inner in
  with_CacheMode inner body g_outer
  = (mkGlobals outer (_DEFAULT_TARGET (fst after_body)), snd after_body)
  /\ with_CacheMode outer (with_CacheMode inner body) g
     = (mkGlobals (CACHING_ENABLED g) (_DEFAULT_TARGET (fst after_body)),
        snd after_body).
Proof.
  destruct g as [f t]. unfold with_CacheMode. simpl.
  destruct (body _) as [g2 out]. done.
Qed.

(** X10: one [CacheMode] instance can be used by one [with] statement after
    the other, but not by one inside the other: the inner exit deletes
    [previous_mode], the outer exit raises [AttributeError] in place of
    the outcome of the body, and [CACHING_ENABLED] keeps the new flag
    instead of the value at entry.  Leaving an instance that was not
    entered raises the same error. *)
Theorem CacheMode_instance_is_not_reentrant {A : Type}
    (g : @globals flag target) (new : flag)
    (body : @globals flag target -> @globals flag target * result A) :
  let entered := mkGlobals new (_DEFAULT_TARGET g) in
  let after_body := body entered in
  with_instance (on_globals body) (CacheMode_init new, g)
  = ((CacheMode_init new, fst (with_CacheMode new body g)),
     snd (with_CacheMode new body g))
  /\ with_instance (on_globals body)
       (fst (with_instance (on_globals body) (CacheMode_init new, g)))
     = ((CacheMode_init new,
         mkGlobals (CACHING_ENABLED g)
           (_DEFAULT_TARGET
              (fst (body (mkGlobals new
                            (_DEFAULT_TARGET (fst after_body))))))),
        snd (body (mkGlobals new (_DEFAULT_TARGET (fst after_body)))))
  /\ with_instance (with_instance (on_globals body)) (CacheMode_init new, g)
     = ((CacheMode_init new,
         mkGlobals new (_DEFAULT_TARGET (fst after_body))),
        Raise (AttributeError "previous_mode"))
  /\ CacheMode_exit (CacheMode_init new) g
     = Raise (AttributeError "previous_mode").
Proof.
  destruct g as [f t].
  unfold with_instance, on_globals, with_CacheMode. simpl.
  destruct (body {| CACHING_ENABLED := new; _DEFAULT_TARGET := t |})
    as [[f2 t2] out] eqn:E. simpl.
  split; [done|]. split; [|done].
  by destruct (body {| CACHING_ENABLED := new; _DEFAULT_TARGET := t2 |})
    as [[f3 t3] out3].
Qed.
End CacheLaws.

Section CopyLaws.
Context {dim_tag program : Type}.
Variable parse_array_dim_tags : layout dim_tag -> result (list dim_tag).
Variable is_unrolled : dim_tag -> bool.
Variable make_kernel : string -> string -> result program.
Variable tag_array_axes : program -> string -> list dim_tag -> result program.
Variable tag_inames : program -> list (string * string) -> result program.

Abbreviation make_copy_kernel' :=
  (make_copy_kernel parse_array_dim_tags is_unrolled make_kernel
     tag_array_axes tag_inames).
Abbreviation unroll_loop' := (unroll_loop is_unrolled tag_inames).

Lemma indices_lookup (rank i : nat) :
  i < rank -> indices rank !! i = Some ("i" +:+ pretty i).
Proof.
  intros Hi. unfold indices. rewrite list_lookup_fmap, lookup_seq_lt by done.
  done.
Qed.

(** X11: [make_copy_kernel] names [rank] inames and [rank] parameters, all
    different. *)
Theorem copy_kernel_names_distinct (rank : nat) :
  length (indices rank) = rank /\ length (shape rank) = rank
  /\ NoDup (indices rank ++ shape rank).
Proof.
  unfold indices, shape. rewrite !length_fmap, !length_seq.
  split; [done|]. split; [done|].
  assert (forall c, Inj (=) (=) (fun i : nat => String c "" +:+ pretty i)) as Hinj.
  { intros c i j Hij. simpl in Hij. injection Hij as Hij.
    by apply (inj pretty). }
  apply NoDup_app. split; [|split].
  - apply (NoDup_fmap_2 _), NoDup_seq.
  - intros x Hx Hx'.
    apply list_elem_of_fmap in Hx as (i & -> & _).
    apply list_elem_of_fmap in Hx' as (j & Hij & _). discriminate Hij.
  - apply (NoDup_fmap_2 _), NoDup_seq.
Qed.

Lemma unroll_loop_tags (new old : list dim_tag) (rank : nat)
    (range : list nat) : forall knl,
  Forall (fun i => i < length new /\ i < rank) range ->
  (forall i n, new !! i = Some n -> length old <= i -> is_unrolled n = true) ->
  unroll_loop' new old (indices rank) knl range
  = tag_axes tag_inames knl
      (filter (fun i =>
                 (from_option is_unrolled false (new !! i)
                  || from_option is_unrolled false (old !! i)) = true)
         range).
Proof.
  induction range as [|i rest IH]; intros knl HF Hshort; [done|].
  apply Forall_cons in HF as [[Hi Hr] HF].
  simpl. rewrite (indices_lookup rank i Hr).
  destruct (lookup_lt_is_Some_2 new i Hi) as [n Hn]. rewrite Hn.
  rewrite filter_cons. rewrite Hn. simpl.
  destruct (is_unrolled n) eqn:Hun; simpl.
  - destruct (tag_inames knl _) as [knl'|e]; [by apply IH|done].
  - destruct (old !! i) as [o|] eqn:Ho.
    + simpl. destruct (is_unrolled o) eqn:Huo; simpl.
      * destruct (tag_inames knl _) as [knl'|e]; [by apply IH|done].
      * by apply IH.
    + apply lookup_ge_None in Ho. rewrite (Hshort i n Hn Ho) in Hun. done.
Qed.

(** X12: when the helpers succeed and every axis that the old layout lacks
    has a separate or vector tag in the new one, [make_copy_kernel] tags
    ["unr"] the inames of the axes where one of the two layouts has such a
    tag, in increasing order, and no other; without such a tag it returns
    the kernel of [make_kernel] with the two arrays tagged. *)
Theorem make_copy_kernel_tags_unrolled_axes
    (new_dim_tags : layout dim_tag) (old_dim_tags : option (layout dim_tag))
    (new old : list dim_tag) (knl0 knl1 knl2 : program) :
  parse_array_dim_tags new_dim_tags = Ok new ->
  old_tags parse_array_dim_tags (length new) old_dim_tags = Ok old ->
  (forall i n, new !! i = Some n -> length old <= i -> is_unrolled n = true) ->
  make_kernel (set_str (length new)) (copy_instruction (length new)) = Ok knl0 ->
  tag_array_axes knl0 "input" old = Ok knl1 ->
  tag_array_axes knl1 "output" new = Ok knl2 ->
  make_copy_kernel' new_dim_tags old_dim_tags
  = tag_axes tag_inames knl2 (unrolled_axes is_unrolled new old)
  /\ ((forall n, n ∈ new -> is_unrolled n = false) ->
      (forall o, o ∈ old -> is_unrolled o = false) ->
      make_copy_kernel' new_dim_tags old_dim_tags = Ok knl2).
Proof.
  intros Hnew Hold Hshort Hmk Hin Hout.
  assert (make_copy_kernel' new_dim_tags old_dim_tags
          = tag_axes tag_inames knl2 (unrolled_axes is_unrolled new old)) as E.
  { unfold make_copy_kernel. rewrite Hnew, Hold, Hmk, Hin, Hout.
    apply unroll_loop_tags; [|done].
    apply Forall_forall. intros i Hi. apply elem_of_seq in Hi. lia. }
  split; [exact E|]. intros Hn Ho. rewrite E.
  unfold unrolled_axes.
  destruct (filter _ (seq 0 (length new))) as [|i l] eqn:Ef; [done|].
  assert (i ∈ i :: l) as Hi by left. rewrite <- Ef in Hi.
  apply list_elem_of_filter in Hi as [Hi _].
  apply orb_true_iff in Hi as [Hi|Hi].
  - destruct (new !! i) as [n|] eqn:En; [|done]. simpl in Hi.
    rewrite Hn in Hi; [done|]. by eapply list_elem_of_lookup_2.
  - destruct (old !! i) as [o|] eqn:Eo; [|done]. simpl in Hi.
    rewrite Ho in Hi; [done|]. by eapply list_elem_of_lookup_2.
Qed.

Lemma unroll_loop_short (new old : list dim_tag) (names : list string)
    (j : nat) (n : dim_tag) (range : list nat) : forall knl,
  j ∈ range -> new !! j = Some n -> length old <= j ->
  is_unrolled n = false ->
  (forall p, unroll_loop' new old names knl range <> Ok p)
  /\ ((forall k d, exists k', tag_inames k d = Ok k') ->
      Forall (fun i => is_Some (names !! i) /\ is_Some (new !! i)) range ->
      unroll_loop' new old names knl range
      = Raise (IndexError "list index out of range")).
Proof.
  induction range as [|i rest IH]; intros knl Hj Hn Hlen Hun.
  - by apply elem_of_nil in Hj.
  - simpl. destruct (decide (i = j)) as [->|Hne].
    + rewrite Hn, Hun. rewrite (proj2 (lookup_ge_None old j)) by done. done.
    + assert (j ∈ rest) as Hj' by (apply elem_of_cons in Hj as [?|?]; done).
      split.
      * intros p.
        destruct (new !! i) as [ni|]; [|done].
        destruct (names !! i) as [name|].
        -- destruct (tag_inames knl [(name, "unr")]) as [knl'|e] eqn:Et.
           ++ destruct (is_unrolled ni); [by apply IH|].
              destruct (old !! i) as [o|]; [|done].
              destruct (is_unrolled o); by apply IH.
           ++ destruct (is_unrolled ni); [done|].
              destruct (old !! i) as [o|]; [|done].
              destruct (is_unrolled o); [done|by apply IH].
        -- destruct (is_unrolled ni); [done|].
           destruct (old !! i) as [o|]; [|done].
           destruct (is_unrolled o); [done|by apply IH].
      * intros Htag HF. apply Forall_cons in HF as [[[name Hname] [ni Hni]] HF].
        rewrite Hname, Hni.
        destruct (Htag knl [(name, "unr")]) as [knl' ->].
        destruct (is_unrolled ni); [by apply IH|].
        destruct (old !! i) as [o|]; [|done].
        destruct (is_unrolled o); by apply IH.
Qed.

(** X13: when the old layout has no entry for an axis whose new tag is no
    separate or vector tag, [make_copy_kernel] returns no program; when
    the helpers succeed it raises [IndexError]. *)
Theorem make_copy_kernel_short_old_layout
    (new_dim_tags : layout dim_tag) (old_dim_tags : option (layout dim_tag))
    (new old : list dim_tag) (j : nat) (n : dim_tag) :
  parse_array_dim_tags new_dim_tags = Ok new ->
  old_tags parse_array_dim_tags (length new) old_dim_tags = Ok old ->
  new !! j = Some n -> length old <= j -> is_unrolled n = false ->
  (forall p, make_copy_kernel' new_dim_tags old_dim_tags <> Ok p)
  /\ (forall knl0 knl1 knl2,
        make_kernel (set_str (length new)) (copy_instruction (length new))
        = Ok knl0 ->
        tag_array_axes knl0 "input" old = Ok knl1 ->
        tag_array_axes knl1 "output" new = Ok knl2 ->
        (forall k d, exists k', tag_inames k d = Ok k') ->
        make_copy_kernel' new_dim_tags old_dim_tags
        = Raise (IndexError "list index out of range")).
Proof.
  intros Hnew Hold Hn Hlen Hun.
  assert (j ∈ seq 0 (length new)) as Hj.
  { apply elem_of_seq. apply lookup_lt_Some in Hn. lia. }
  unfold make_copy_kernel. rewrite Hnew, Hold. split.
  - intros p.
    destruct (make_kernel _ _) as [knl0|]; [|done].
    destruct (tag_array_axes knl0 _ _) as [knl1|]; [|done].
    destruct (tag_array_axes knl1 _ _) as [knl2|]; [|done].
    by apply (unroll_loop_short new old _ j n).
  - intros knl0 knl1 knl2 -> -> -> Htag.
    apply (unroll_loop_short new old _ j n); try done.
    apply Forall_forall. intros i Hi. apply elem_of_seq in Hi.
    split.
    + rewrite indices_lookup by lia. eauto.
    + apply lookup_lt_is_Some_2. lia.
Qed.
End CopyLaws.

(** ** The properties at concrete calls *)

Lemma registration_keeps_lists_distinct_witness :
  NoDup (function_manglers kernel0)
  /\ fst (register_function_manglers unpickles pretty kernel0 [6; 6; 8])
     = Ok (mkLoopKernel 0 [2] [] [8; 6; 4])
  /\ NoDup [8; 6; 4].
Proof.
  assert (NoDup (function_manglers kernel0)) as H1
    by (apply NoDup_singleton).
  assert (fst (register_function_manglers unpickles pretty kernel0 [6; 6; 8])
          = Ok (mkLoopKernel 0 [2] [] [8; 6; 4])) as H2 by reflexivity.
  split; [exact H1|]. split; [exact H2|].
  destruct (registration_keeps_lists_distinct unpickles (pretty : nat -> string))
    as (Hf & _ & _).
  exact (Hf kernel0 [6; 6; 8] _ H1 H2).
Defined.

Lemma registration_checks_once_witness :
  fst (register_function_manglers unpickles pretty kernel0 [6; 6; 8])
  = Ok (mkLoopKernel 0 [2] [] [8; 6; 4])
  /\ NoDup (snd (register_function_manglers unpickles pretty kernel0 [6; 6; 8]))
  /\ [8; 6; 4]
     = reverse (snd (register_function_manglers unpickles pretty kernel0
                       [6; 6; 8])) ++ function_manglers kernel0.
Proof.
  assert (fst (register_function_manglers unpickles pretty kernel0 [6; 6; 8])
          = Ok (mkLoopKernel 0 [2] [] [8; 6; 4])) as H by reflexivity.
  destruct (registration_checks_once unpickles (pretty : nat -> string))
    as (Hf & _ & _).
  destruct (Hf kernel0 [6; 6; 8]) as [Hnd Hfront].
  split; [exact H|]. split; [exact Hnd|]. exact (Hfront _ H).
Defined.

Lemma registration_raises_at_first_failure_witness :
  (forall x, x ∈ [4; 6] -> x ∈ function_manglers kernel0 \/ unpickles x = true)
  /\ (7 ∉ function_manglers kernel0)
  /\ unpickles 7 = false
  /\ register_function_manglers unpickles pretty kernel0 ([4; 6] ++ 7 :: [9])
     = (Raise (LoopyError (mangler_message (pretty 7))),
        fresh_callbacks (function_manglers kernel0) [4; 6] ++ [7]).
Proof.
  assert (forall x, x ∈ [4; 6] ->
            x ∈ function_manglers kernel0 \/ unpickles x = true) as H1.
  { intros x Hx. apply elem_of_cons in Hx as [->|Hx]; [left; compute_done|].
    apply list_elem_of_singleton in Hx as ->. right. reflexivity. }
  assert (7 ∉ function_manglers kernel0) as H2 by compute_done.
  assert (unpickles 7 = false) as H3 by reflexivity.
  split; [exact H1|]. split; [exact H2|]. split; [exact H3|].
  destruct (registration_raises_at_first_failure unpickles
              (pretty : nat -> string)) as (Hf & _ & _).
  exact (Hf kernel0 [4; 6] 7 [9] H1 H2 H3).
Defined.


Lemma set_options_names_first_unknown_option_witness :
  heap0 !! options kernel0 = Some attrs0
  /\ no_legacy [("write_wrapper", 1%Z); ("bogus", 2%Z); ("wrong", 3%Z)]
     = Ok ([("write_wrapper", 1%Z)] ++ ("bogus", 2%Z) :: [("wrong", 3%Z)])
  /\ Forall (fun kv => is_Some (attrs0 !! kv.1)) [("write_wrapper", 1%Z)]
  /\ attrs0 !! "bogus" = None
  /\ snd (set_options no_legacy parse_options update_options heap0 kernel0 []
            [("write_wrapper", 1%Z); ("bogus", 2%Z); ("wrong", 3%Z)])
     = Raise (ValueError ("unknown option '" +:+ "bogus" +:+ "'")).
Proof.
  assert (heap0 !! options kernel0 = Some attrs0) as H1 by reflexivity.
  assert (no_legacy [("write_wrapper", 1%Z); ("bogus", 2%Z); ("wrong", 3%Z)]
          = Ok ([("write_wrapper", 1%Z)] ++ ("bogus", 2%Z) :: [("wrong", 3%Z)]))
    as H2 by reflexivity.
  assert (Forall (fun kv => is_Some (attrs0 !! kv.1)) [("write_wrapper", 1%Z)])
    as H3 by (repeat constructor; exists 0%Z; reflexivity).
  assert (attrs0 !! "bogus" = None) as H4 by reflexivity.
  split; [exact H1|]. split; [exact H2|]. split; [exact H3|].
  split; [exact H4|].
  exact (set_options_names_first_unknown_option no_legacy parse_options
           update_options heap0 kernel0 attrs0
           [("write_wrapper", 1%Z); ("bogus", 2%Z); ("wrong", 3%Z)]
           [("write_wrapper", 1%Z)] [("wrong", 3%Z)] "bogus" 2%Z H1
           ltac:(discriminate) H2 H3 H4).
Defined.

Lemma set_options_keeps_option_names_witness :
  heap0 !! options kernel0 = Some attrs0
  /\ exists h',
       set_options no_legacy parse_options update_options heap0 kernel0 []
         [("write_wrapper", 5%Z)] = (h', Ok (mkLoopKernel 1 [2] [] [4]))
       /\ exists attrs', h' !! 1 = Some attrs' /\ dom attrs' = dom attrs0.
Proof.
  assert (heap0 !! options kernel0 = Some attrs0) as H1 by reflexivity.
  split; [exact H1|].
  exists (fst (set_options (callback:=nat) no_legacy parse_options
                 update_options heap0 kernel0 [] [("write_wrapper", 5%Z)])).
  assert (set_options no_legacy parse_options update_options heap0 kernel0 []
            [("write_wrapper", 5%Z)]
          = (fst (set_options (callback:=nat) no_legacy parse_options
                    update_options heap0 kernel0 [] [("write_wrapper", 5%Z)]),
             Ok (mkLoopKernel 1 [2] [] [4]))) as E
    by (vm_compute; reflexivity).
  split; [exact E|].
  exact (set_options_keeps_option_names no_legacy parse_options update_options
           heap0 _ kernel0 _ attrs0 [] [("write_wrapper", 5%Z)] H1
           ltac:(discriminate) E).
Defined.

Lemma set_options_never_shares_options_witness :
  heap0 !! options kernel0 = Some attrs0
  /\ exists h1 h2,
       set_options no_legacy parse_options update_options heap0 kernel0 []
         [("write_wrapper", 5%Z)] = (h1, Ok (mkLoopKernel 1 [2] [] [4]))
       /\ set_options no_legacy parse_options update_options h1
            (mkLoopKernel 1 [2] [] [4]) [7%Z] []
          = (h2, Ok (mkLoopKernel 2 [2] [] [4]))
       /\ h2 !! 0 = Some attrs0
       /\ h2 !! 1 = h1 !! 1.
Proof.
  assert (heap0 !! options kernel0 = Some attrs0) as H0 by reflexivity.
  split; [exact H0|].
  pose (h1 := fst (set_options (callback:=nat) no_legacy parse_options
                     update_options heap0 kernel0 []
                     [("write_wrapper", 5%Z)])).
  pose (h2 := fst (set_options (callback:=nat) no_legacy parse_options
                     update_options h1 (mkLoopKernel 1 [2] [] [4])
                     [7%Z] [])).
  assert (set_options no_legacy parse_options update_options heap0 kernel0 []
            [("write_wrapper", 5%Z)] = (h1, Ok (mkLoopKernel 1 [2] [] [4])))
    as E1 by (vm_compute; reflexivity).
  assert (set_options no_legacy parse_options update_options h1
            (mkLoopKernel 1 [2] [] [4]) [7%Z] []
          = (h2, Ok (mkLoopKernel 2 [2] [] [4])))
    as E2 by (vm_compute; reflexivity).
  exists h1, h2. split; [exact E1|]. split; [exact E2|].
  destruct (set_options_never_shares_options no_legacy parse_options
              update_options heap0 h1 h2 kernel0 _ _ attrs0
              [] [7%Z] [("write_wrapper", 5%Z)] [] H0 E1 E2)
    as (_ & _ & _ & D & F & _).
  split; [exact D|exact F].
Defined.

Lemma make_copy_kernel_tags_unrolled_axes_witness :
  parse_tags (LayoutTags [0; 1; 3]) = Ok [0; 1; 3]
  /\ old_tags parse_tags (length [0; 1; 3]) (Some (LayoutTags [0; 0]))
     = Ok [0; 0]
  /\ (forall i n, [0; 1; 3] !! i = Some n -> length [0; 0] <= i ->
        odd_tag n = true)
  /\ make_copy_kernel parse_tags odd_tag log_make_kernel log_tag_array_axes
       log_tag_inames (LayoutTags [0; 1; 3]) (Some (LayoutTags [0; 0]))
     = tag_axes log_tag_inames
         [set_str 3; copy_instruction 3; "input"; "output"]
         (unrolled_axes odd_tag [0; 1; 3] [0; 0]).
Proof.
  assert (parse_tags (LayoutTags [0; 1; 3]) = Ok [0; 1; 3]) as H1
    by reflexivity.
  assert (old_tags parse_tags (length [0; 1; 3]) (Some (LayoutTags [0; 0]))
          = Ok [0; 0]) as H2 by reflexivity.
  assert (forall i n, [0; 1; 3] !! i = Some n -> length [0; 0] <= i ->
            odd_tag n = true) as H3.
  { intros [|[|[|i]]] n Hn Hi; simpl in *; try lia; [|done].
    by injection Hn as <-. }
  split; [exact H1|]. split; [exact H2|]. split; [exact H3|].
  exact (proj1 (make_copy_kernel_tags_unrolled_axes parse_tags odd_tag
                  log_make_kernel log_tag_array_axes log_tag_inames
                  (LayoutTags [0; 1; 3]) (Some (LayoutTags [0; 0]))
                  [0; 1; 3] [0; 0] _ _ _ H1 H2 H3 eq_refl eq_refl eq_refl)).
Defined.

Lemma make_copy_kernel_short_old_layout_witness :
  parse_tags (LayoutTags [0; 1; 2]) = Ok [0; 1; 2]
  /\ old_tags parse_tags (length [0; 1; 2]) (Some (LayoutTags [0; 0]))
     = Ok [0; 0]
  /\ [0; 1; 2] !! 2 = Some 2 /\ length [0; 0] <= 2 /\ odd_tag 2 = false
  /\ make_copy_kernel parse_tags odd_tag log_make_kernel log_tag_array_axes
       log_tag_inames (LayoutTags [0; 1; 2]) (Some (LayoutTags [0; 0]))
     = Raise (IndexError "list index out of range").
Proof.
  assert (parse_tags (LayoutTags [0; 1; 2]) = Ok [0; 1; 2]) as H1
    by reflexivity.
  assert (old_tags parse_tags (length [0; 1; 2]) (Some (LayoutTags [0; 0]))
          = Ok [0; 0]) as H2 by reflexivity.
  assert ([0; 1; 2] !! 2 = Some 2) as H3 by reflexivity.
  assert (length [0; 0] <= 2) as H4 by (simpl; lia).
  assert (odd_tag 2 = false) as H5 by reflexivity.
  split; [exact H1|]. split; [exact H2|]. split; [exact H3|].
  split; [exact H4|]. split; [exact H5|].
  destruct (make_copy_kernel_short_old_layout parse_tags odd_tag
              log_make_kernel log_tag_array_axes log_tag_inames
              (LayoutTags [0; 1; 2]) (Some (LayoutTags [0; 0]))
              [0; 1; 2] [0; 0] 2 2 H1 H2 H3 H4 H5) as [_ Hraise].
  apply (Hraise _ _ _ eq_refl eq_refl eq_refl).
  intros k d. eexists. reflexivity.
Defined.

(** The strings that [make_copy_kernel] gives [make_kernel] for two axes. *)
Example copy_kernel_strings_rank_2 :
  set_str 2 = "{[i0, i1]: 0<=i0<n0 and 0<=i1<n1}"
  /\ copy_instruction 2 = "output[i0, i1] = input[i0, i1]".
Proof. split; vm_compute; reflexivity. Qed.

End LoopyLaws.
